(** * BlockRTC: the relay directory and the peer session

    A shallow embedding of two parts of the repository:

    - [server/server.js]: the relay's [connectedUsers] directory and the
      socket handlers that register a client ([join]), drop it
      ([disconnect]) and forward a message to the socket of its target;
    - [utils/webrtc.ts]: the class [WebRTCManager], one peer session.

    JavaScript handlers run to completion, so every handler and every
    method is one function from the state before to the state after,
    together with the list of effects it performed, in program order. *)

From Stdlib Require Import String List Bool Arith Lia.
Import ListNotations.
Open Scope string_scope.
Open Scope list_scope.

(* ===================================================================== *)
(** ** The relay ([server/server.js])                                     *)
(* ===================================================================== *)

Module Relay.

Abbreviation SocketId := string (only parsing).
Abbreviation UserId := string (only parsing).

(** A JavaScript [Map] with string keys: its entries in insertion order.
    [Array.from(m.entries()).find(...)] returns the first match in that
    order, so the order is part of the model. *)
Definition JsMap (V : Type) := list (string * V).

Fixpoint map_get {V} (k : string) (m : JsMap V) : option V :=
  match m with
  | [] => None
  | (k', v) :: m' => if k' =? k then Some v else map_get k m'
  end.

(** [m.set(k, v)]: an existing key keeps its place, a new key goes last. *)
Fixpoint map_set {V} (k : string) (v : V) (m : JsMap V) : JsMap V :=
  match m with
  | [] => [(k, v)]
  | (k', v') :: m' =>
      if k' =? k then (k, v) :: m' else (k', v') :: map_set k v m'
  end.

(** [m.delete(k)]. *)
Fixpoint map_delete {V} (k : string) (m : JsMap V) : JsMap V :=
  match m with
  | [] => []
  | (k', v') :: m' => if k' =? k then m' else (k', v') :: map_delete k m'
  end.

Definition map_keys {V} (m : JsMap V) : list string := map fst m.
Definition map_values {V} (m : JsMap V) : list V := map snd m.

(** A [Map] holds a key once. *)
Definition map_wf {V} (m : JsMap V) : Prop := NoDup (map_keys m).

(** [m.get(k) || []] *)
Definition get_or_empty {A} (k : string) (m : JsMap (list A)) : list A :=
  match map_get k m with
  | Some l => l
  | None => []
  end.

(** What the handlers pass around without looking inside. *)
Record MessageData := {
  md_sender : UserId;
  md_receiver : UserId;
  md_content : string
}.

Record Contact := {
  ct_address : UserId;
  ct_lastMessage : string
}.

(** The second argument of an [emit]. *)
Inductive Payload :=
| PMessages (msgs : list MessageData)
| PContacts (cts : list Contact)
| POnlineUsers (users : list UserId)
| POffer (offer : string) (sender : UserId)
| PAnswer (answer : string) (sender : UserId)
| PCandidate (candidate : string) (sender : option UserId)
| PCallOffer (offer : string) (sender : UserId) (hasVideo : bool)
| PMessage (m : MessageData).

Inductive Effect :=
| SocketEmit (sid : SocketId) (event : string) (p : Payload)
    (* socket.emit: to the client whose handler is running *)
| IoTo (sid : SocketId) (event : string) (p : Payload)
    (* io.to(sid).emit: to the client of that socket *)
| IoEmit (event : string) (p : Payload)
    (* io.emit: to every client *)
| ConsoleLog (text : string).

Record State := {
  connectedUsers : JsMap UserId;          (* socket id -> user id *)
  messages : JsMap (list MessageData);    (* user id -> stored messages *)
  userContacts : JsMap (list Contact);    (* user id -> contacts *)
  socketUserId : JsMap UserId             (* socket.userId of each socket *)
}.

Definition initial : State :=
  {| connectedUsers := []; messages := []; userContacts := [];
     socketUserId := [] |}.

Definition set_connectedUsers (m : JsMap UserId) (st : State) : State :=
  {| connectedUsers := m; messages := messages st;
     userContacts := userContacts st; socketUserId := socketUserId st |}.

Definition set_socketUserId (m : JsMap UserId) (st : State) : State :=
  {| connectedUsers := connectedUsers st; messages := messages st;
     userContacts := userContacts st; socketUserId := m |}.

(** The loop of [join]:
<<
    for (const [socketId, existingUserId] of connectedUsers.entries()) {
      if (existingUserId === userId && socketId !== socket.id) {
        connectedUsers.delete(socketId)
        console.log(`Removed duplicate connection for user ${userId}`)
      }
    }
>>
    [todo] is what the iterator has still to visit. *)
Fixpoint evict_loop (todo : list (SocketId * UserId)) (sid : SocketId)
    (userId : UserId) (m : JsMap UserId) : JsMap UserId * list Effect :=
  match todo with
  | [] => (m, [])
  | (socketId, existingUserId) :: rest =>
      if (existingUserId =? userId) && negb (socketId =? sid) then
        let '(m', log) := evict_loop rest sid userId (map_delete socketId m) in
        (m', ConsoleLog "Removed duplicate connection for user" :: log)
      else evict_loop rest sid userId m
  end.

(** The entries the loop removes: those of [userId] on another socket. *)
Definition stale (sid : SocketId) (userId : UserId) (e : SocketId * UserId)
  : bool :=
  (snd e =? userId) && negb (fst e =? sid).

Definition evict (sid : SocketId) (userId : UserId) (m : JsMap UserId)
  : JsMap UserId * list Effect :=
  evict_loop m sid userId m.

(** [socket.on('join', (userId) => ...)] on the socket [sid]. *)
Definition join (sid : SocketId) (userId : UserId) (st : State)
  : State * list Effect :=
  let '(evicted, log) := evict sid userId (connectedUsers st) in
  let users := map_set sid userId evicted in
  let st' :=
    set_socketUserId (map_set sid userId (socketUserId st))
      (set_connectedUsers users st) in
  let userMessages := get_or_empty userId (messages st') in
  let contacts := get_or_empty userId (userContacts st') in
  let onlineUsers := map_values users in
  (st',
   [ConsoleLog "Join request"] ++ log ++
   [SocketEmit sid "syncMessages" (PMessages userMessages);
    SocketEmit sid "syncContacts" (PContacts contacts);
    IoEmit "getOnlineUsers" (POnlineUsers onlineUsers);
    ConsoleLog "User joined successfully";
    ConsoleLog "Currently connected users";
    ConsoleLog "Socket mapping"]).

(** The directory after the loop of [join] and before its
    [connectedUsers.set]. *)
Definition join_evicted (sid : SocketId) (userId : UserId) (st : State)
  : JsMap UserId :=
  fst (evict sid userId (connectedUsers st)).

(** [socket.on('disconnect', ...)] *)
Definition disconnect (sid : SocketId) (st : State) : State * list Effect :=
  let users := map_delete sid (connectedUsers st) in
  (set_connectedUsers users st,
   [ConsoleLog "User disconnected";
    IoEmit "getOnlineUsers" (POnlineUsers (map_values users))]).

(** [Array.from(connectedUsers.entries())
       .find(([socketId, userId]) => userId === target)?.[0]] *)
Definition find_socket (target : UserId) (m : JsMap UserId) : option SocketId :=
  option_map fst (find (fun e => snd e =? target) m).

(** [if (targetSocketId)]: [undefined] and the empty string are falsy. *)
Definition truthy (o : option SocketId) : bool :=
  match o with
  | Some s => negb (s =? "")
  | None => false
  end.

(** The entries that name [userId]. *)
Definition entries_of (userId : UserId) (m : JsMap UserId)
  : list (SocketId * UserId) :=
  filter (fun e => snd e =? userId) m.

(** [socket.on('webrtc-offer', (data) => ...)] *)
Definition on_webrtc_offer (sid : SocketId) (offer : string)
    (target sender : UserId) (st : State) : State * list Effect :=
  match find_socket target (connectedUsers st) with
  | Some targetSocketId =>
      if truthy (Some targetSocketId) then
        (st, [ConsoleLog "WebRTC offer";
              IoTo targetSocketId "webrtc-offer" (POffer offer sender);
              ConsoleLog "Offer forwarded to target"])
      else (st, [ConsoleLog "WebRTC offer";
                 ConsoleLog "Target not found for offer:"])
  | None => (st, [ConsoleLog "WebRTC offer";
                  ConsoleLog "Target not found for offer:"])
  end.

(** [socket.on('webrtc-answer', (data) => ...)] *)
Definition on_webrtc_answer (sid : SocketId) (answer : string)
    (target sender : UserId) (st : State) : State * list Effect :=
  match find_socket target (connectedUsers st) with
  | Some targetSocketId =>
      if truthy (Some targetSocketId) then
        (st, [ConsoleLog "WebRTC answer";
              IoTo targetSocketId "webrtc-answer" (PAnswer answer sender);
              ConsoleLog "Answer forwarded to target"])
      else (st, [ConsoleLog "WebRTC answer";
                 ConsoleLog "Target not found for answer:"])
  | None => (st, [ConsoleLog "WebRTC answer";
                  ConsoleLog "Target not found for answer:"])
  end.

(** [socket.on('sendMessage', (messageData) => ...)] *)
Definition on_sendMessage (sid : SocketId) (messageData : MessageData)
    (st : State) : State * list Effect :=
  match find_socket (md_receiver messageData) (connectedUsers st) with
  | Some receiverSocketId =>
      if truthy (Some receiverSocketId) then
        (st, [ConsoleLog "Message received"; ConsoleLog "Message content:";
              ConsoleLog "Forwarding message to receiver socket:";
              IoTo receiverSocketId "receiveMessage" (PMessage messageData)])
      else (st, [ConsoleLog "Message received"; ConsoleLog "Message content:";
                 ConsoleLog "Receiver not found online:";
                 ConsoleLog "Currently connected users:"])
  | None => (st, [ConsoleLog "Message received"; ConsoleLog "Message content:";
                  ConsoleLog "Receiver not found online:";
                  ConsoleLog "Currently connected users:"])
  end.

(** [socket.on('webrtc-ice-candidate', (data) => ...)] *)
Definition on_webrtc_ice_candidate (sid : SocketId) (candidate : string)
    (target : UserId) (st : State) : State * list Effect :=
  match find_socket target (connectedUsers st) with
  | Some targetSocketId =>
      if truthy (Some targetSocketId) then
        (st, [ConsoleLog "ICE candidate";
              IoTo targetSocketId "webrtc-ice-candidate"
                (PCandidate candidate (map_get sid (socketUserId st)))])
      else (st, [ConsoleLog "ICE candidate"])
  | None => (st, [ConsoleLog "ICE candidate"])
  end.

(** [socket.on('webrtc-call-offer', (data) => ...)] *)
Definition on_webrtc_call_offer (sid : SocketId) (offer : string)
    (target sender : UserId) (hasVideo : bool) (st : State)
  : State * list Effect :=
  match find_socket target (connectedUsers st) with
  | Some targetSocketId =>
      if truthy (Some targetSocketId) then
        (st, [ConsoleLog "WebRTC call offer";
              IoTo targetSocketId "webrtc-call-offer"
                (PCallOffer offer sender hasVideo)])
      else (st, [ConsoleLog "WebRTC call offer"])
  | None => (st, [ConsoleLog "WebRTC call offer"])
  end.

(** A message a client asks the relay to forward, and its handler. *)
Inductive Forwarded :=
| FwdOffer (offer : string) (target sender : UserId)
| FwdAnswer (answer : string) (target sender : UserId)
| FwdMessage (messageData : MessageData)
| FwdCandidate (candidate : string) (target : UserId)
| FwdCallOffer (offer : string) (target sender : UserId) (hasVideo : bool).

Definition target_of (f : Forwarded) : UserId :=
  match f with
  | FwdOffer _ t _ | FwdAnswer _ t _ | FwdCandidate _ t
  | FwdCallOffer _ t _ _ => t
  | FwdMessage m => md_receiver m
  end.

Definition forward (sid : SocketId) (f : Forwarded) (st : State)
  : State * list Effect :=
  match f with
  | FwdOffer o t s => on_webrtc_offer sid o t s st
  | FwdAnswer a t s => on_webrtc_answer sid a t s st
  | FwdMessage m => on_sendMessage sid m st
  | FwdCandidate c t => on_webrtc_ice_candidate sid c t st
  | FwdCallOffer o t s v => on_webrtc_call_offer sid o t s v st
  end.

(** What a client can make the relay do, and a run of the relay from a
    state through a list of such events. *)
Inductive Event :=
| Join (sid : SocketId) (userId : UserId)
| Disconnect (sid : SocketId)
| Forward (sid : SocketId) (f : Forwarded).

Definition handle (ev : Event) (st : State) : State * list Effect :=
  match ev with
  | Join sid userId => join sid userId st
  | Disconnect sid => disconnect sid st
  | Forward sid f => forward sid f st
  end.

Fixpoint run (evs : list Event) (st : State) : State :=
  match evs with
  | [] => st
  | ev :: rest => run rest (fst (handle ev st))
  end.

(** An effect that reaches some client. *)
Definition is_emit (e : Effect) : bool :=
  match e with
  | ConsoleLog _ => false
  | _ => true
  end.

(** An effect that reaches the client of socket [sid]: an emit addressed to
    it, or a broadcast. *)
Definition reaches (sid : SocketId) (e : Effect) : bool :=
  match e with
  | SocketEmit s _ _ | IoTo s _ _ => s =? sid
  | IoEmit _ _ => true
  | ConsoleLog _ => false
  end.

End Relay.

(* ===================================================================== *)
(** ** The peer session ([utils/webrtc.ts], class [WebRTCManager])        *)
(* ===================================================================== *)

Module WebRTC.

(** How a call ends: it returns a value or it throws. *)
Inductive Outcome (A : Type) :=
| Returned (a : A)
| Threw (error : string).
Arguments Returned {A} a.
Arguments Threw {A} error.

(** [RTCSessionDescriptionInit] *)
Record SessionDescription := {
  sd_type : string;    (* 'offer' or 'answer' *)
  sdp : string
}.

Abbreviation IceCandidate := string (only parsing).   (* RTCIceCandidateInit *)
Abbreviation Track := string (only parsing).          (* MediaStreamTrack *)
Abbreviation Callback := nat (only parsing).   (* a function given by the caller *)
Abbreviation Socket := nat (only parsing).     (* the signaling socket *)

Record P2PMessage := {
  id : string;
  type : string;
  content : string;
  timestamp : nat;
  sender : string
}.

(** The properties of the browser's objects that the class reads. *)
Record RTCPeerConnection := {
  signalingState : string;
  remoteDescription : option SessionDescription;
  localDescription : option SessionDescription
}.

Record RTCDataChannel := {
  label : string;
  readyState : string
}.

Record MediaStream := {
  getTracks : list Track
}.

(** The browser is not part of the repository. Its calls are the fields of
    this record; a value of it fixes, for every state of a peer connection,
    whether a call returns or throws and what it leaves behind.
    [send] on a data channel, the three [close] and [track.stop] are taken
    to return: the class calls them outside any [try]. *)
Record Browser := {
  newRTCPeerConnection : RTCPeerConnection;
  createDataChannel :
    string -> RTCPeerConnection -> Outcome (RTCDataChannel * RTCPeerConnection);
  createOffer : RTCPeerConnection -> Outcome SessionDescription;
  createAnswer : RTCPeerConnection -> Outcome SessionDescription;
  setLocalDescription :
    SessionDescription -> RTCPeerConnection -> Outcome RTCPeerConnection;
  setRemoteDescription :
    SessionDescription -> RTCPeerConnection -> Outcome RTCPeerConnection;
  addIceCandidate :
    IceCandidate -> RTCPeerConnection -> Outcome RTCPeerConnection;
  addTrack : Track -> RTCPeerConnection -> Outcome RTCPeerConnection;
  getUserMedia : bool -> Outcome MediaStream;
  JSON_stringify : P2PMessage -> string
}.

(** What the class sends through [this.socket.emit]. *)
Inductive SignalingMessage :=
| WebrtcOffer (offer : SessionDescription) (target sender : string)
| WebrtcAnswer (answer : SessionDescription) (target sender : string)
| WebrtcCallOffer (offer : SessionDescription) (target sender : string)
    (hasVideo : bool)
| IceCandidateMsg (candidate : IceCandidate) (target : string).

(** The name of the socket event of a message. *)
Definition event_name (m : SignalingMessage) : string :=
  match m with
  | WebrtcOffer _ _ _ => "webrtc-offer"
  | WebrtcAnswer _ _ _ => "webrtc-answer"
  | WebrtcCallOffer _ _ _ _ => "webrtc-call-offer"
  | IceCandidateMsg _ _ => "ice-candidate"
  end.

(** Everything a method does to the world outside its own fields. *)
Inductive Effect :=
| ConsoleLog (text : string)
| ConsoleWarn (text : string)
| ConsoleError (text : string)
| SocketEmit (m : SignalingMessage)
| ConnectionStateCallback (cb : Callback) (state : string)
| NewRTCPeerConnection
| CreateDataChannel (name : string)
| CreateOffer
| CreateAnswer
| SetLocalDescription (d : SessionDescription)
| SetRemoteDescription (d : SessionDescription)
| AddIceCandidate (c : IceCandidate)
| AddTrack (t : Track)
| GetUserMedia (video : bool)
| DataChannelSend (frame : string)
| DataChannelClose
| TrackStop (t : Track)
| PeerConnectionClose.

(** The fields of the class. *)
Record WebRTCManager := {
  peerConnection : option RTCPeerConnection;
  dataChannel : option RTCDataChannel;
  localStream : option MediaStream;
  onMessageCallback : option Callback;
  onConnectionStateCallback : option Callback;
  socket : option Socket;
  localAddress : string;
  remoteAddress : string;
  isInitiator : bool;
  connectionState : string;
  pendingCandidates : list IceCandidate
}.

Definition set_peerConnection v (s : WebRTCManager) : WebRTCManager :=
  {| peerConnection := v; dataChannel := dataChannel s;
     localStream := localStream s; onMessageCallback := onMessageCallback s;
     onConnectionStateCallback := onConnectionStateCallback s;
     socket := socket s; localAddress := localAddress s;
     remoteAddress := remoteAddress s; isInitiator := isInitiator s;
     connectionState := connectionState s;
     pendingCandidates := pendingCandidates s |}.

Definition set_dataChannel v (s : WebRTCManager) : WebRTCManager :=
  {| peerConnection := peerConnection s; dataChannel := v;
     localStream := localStream s; onMessageCallback := onMessageCallback s;
     onConnectionStateCallback := onConnectionStateCallback s;
     socket := socket s; localAddress := localAddress s;
     remoteAddress := remoteAddress s; isInitiator := isInitiator s;
     connectionState := connectionState s;
     pendingCandidates := pendingCandidates s |}.

Definition set_localStream v (s : WebRTCManager) : WebRTCManager :=
  {| peerConnection := peerConnection s; dataChannel := dataChannel s;
     localStream := v; onMessageCallback := onMessageCallback s;
     onConnectionStateCallback := onConnectionStateCallback s;
     socket := socket s; localAddress := localAddress s;
     remoteAddress := remoteAddress s; isInitiator := isInitiator s;
     connectionState := connectionState s;
     pendingCandidates := pendingCandidates s |}.

Definition set_onMessageCallback v (s : WebRTCManager) : WebRTCManager :=
  {| peerConnection := peerConnection s; dataChannel := dataChannel s;
     localStream := localStream s; onMessageCallback := v;
     onConnectionStateCallback := onConnectionStateCallback s;
     socket := socket s; localAddress := localAddress s;
     remoteAddress := remoteAddress s; isInitiator := isInitiator s;
     connectionState := connectionState s;
     pendingCandidates := pendingCandidates s |}.

Definition set_onConnectionStateCallback v (s : WebRTCManager)
  : WebRTCManager :=
  {| peerConnection := peerConnection s; dataChannel := dataChannel s;
     localStream := localStream s; onMessageCallback := onMessageCallback s;
     onConnectionStateCallback := v;
     socket := socket s; localAddress := localAddress s;
     remoteAddress := remoteAddress s; isInitiator := isInitiator s;
     connectionState := connectionState s;
     pendingCandidates := pendingCandidates s |}.

Definition set_remoteAddress v (s : WebRTCManager) : WebRTCManager :=
  {| peerConnection := peerConnection s; dataChannel := dataChannel s;
     localStream := localStream s; onMessageCallback := onMessageCallback s;
     onConnectionStateCallback := onConnectionStateCallback s;
     socket := socket s; localAddress := localAddress s;
     remoteAddress := v; isInitiator := isInitiator s;
     connectionState := connectionState s;
     pendingCandidates := pendingCandidates s |}.

Definition set_isInitiator v (s : WebRTCManager) : WebRTCManager :=
  {| peerConnection := peerConnection s; dataChannel := dataChannel s;
     localStream := localStream s; onMessageCallback := onMessageCallback s;
     onConnectionStateCallback := onConnectionStateCallback s;
     socket := socket s; localAddress := localAddress s;
     remoteAddress := remoteAddress s; isInitiator := v;
     connectionState := connectionState s;
     pendingCandidates := pendingCandidates s |}.

Definition set_connectionState v (s : WebRTCManager) : WebRTCManager :=
  {| peerConnection := peerConnection s; dataChannel := dataChannel s;
     localStream := localStream s; onMessageCallback := onMessageCallback s;
     onConnectionStateCallback := onConnectionStateCallback s;
     socket := socket s; localAddress := localAddress s;
     remoteAddress := remoteAddress s; isInitiator := isInitiator s;
     connectionState := v;
     pendingCandidates := pendingCandidates s |}.

Definition set_pendingCandidates v (s : WebRTCManager) : WebRTCManager :=
  {| peerConnection := peerConnection s; dataChannel := dataChannel s;
     localStream := localStream s; onMessageCallback := onMessageCallback s;
     onConnectionStateCallback := onConnectionStateCallback s;
     socket := socket s; localAddress := localAddress s;
     remoteAddress := remoteAddress s; isInitiator := isInitiator s;
     connectionState := connectionState s;
     pendingCandidates := v |}.

(** *** The monad of a method body

    A body reads and writes the fields, performs effects, and returns or
    throws. *)
Definition M (A : Type) : Type :=
  WebRTCManager -> Outcome A * WebRTCManager * list Effect.

Definition ret {A} (a : A) : M A := fun s => (Returned a, s, []).

Definition throw {A} (e : string) : M A := fun s => (Threw e, s, []).

Definition bind {A B} (m : M A) (k : A -> M B) : M B :=
  fun s =>
    match m s with
    | (Returned a, s1, t1) =>
        let '(r, s2, t2) := k a s1 in (r, s2, t1 ++ t2)
    | (Threw e, s1, t1) => (Threw e, s1, t1)
    end.

(** [try { body } catch (error) { handler }] *)
Definition try_catch {A} (body : M A) (handler : string -> M A) : M A :=
  fun s =>
    match body s with
    | (Returned a, s1, t1) => (Returned a, s1, t1)
    | (Threw e, s1, t1) =>
        let '(r, s2, t2) := handler e s1 in (r, s2, t1 ++ t2)
    end.

Definition get : M WebRTCManager := fun s => (Returned s, s, []).
Definition modify (f : WebRTCManager -> WebRTCManager) : M unit :=
  fun s => (Returned tt, f s, []).
Definition effect (e : Effect) : M unit := fun s => (Returned tt, s, [e]).

Declare Scope session_scope.
Delimit Scope session_scope with session.
Notation "x <- m ;; k" := (bind m (fun x => k))
  (at level 61, m at next level, right associativity) : session_scope.
Notation "m ;; k" := (bind m (fun _ => k))
  (at level 61, right associativity) : session_scope.
Open Scope session_scope.

Definition state_of {A} (r : Outcome A * WebRTCManager * list Effect)
  : WebRTCManager := snd (fst r).
Definition outcome_of {A} (r : Outcome A * WebRTCManager * list Effect)
  : Outcome A := fst (fst r).
Definition effects_of {A} (r : Outcome A * WebRTCManager * list Effect)
  : list Effect := snd r.

Section Methods.

Variable B : Browser.

(** A call [this.peerConnection.op(...)] that changes the connection: a
    [TypeError] when the field is [null], else what the browser does. *)
Definition pc_update (e : Effect)
    (op : RTCPeerConnection -> Outcome RTCPeerConnection) : M unit :=
  fun s =>
    match peerConnection s with
    | None => (Threw "TypeError", s, [])
    | Some pc =>
        match op pc with
        | Returned pc' => (Returned tt, set_peerConnection (Some pc') s, [e])
        | Threw err => (Threw err, s, [e])
        end
    end.

(** A call [this.peerConnection.op()] that produces a description. *)
Definition pc_create (e : Effect)
    (op : RTCPeerConnection -> Outcome SessionDescription)
  : M SessionDescription :=
  fun s =>
    match peerConnection s with
    | None => (Threw "TypeError", s, [])
    | Some pc =>
        match op pc with
        | Returned d => (Returned d, s, [e])
        | Threw err => (Threw err, s, [e])
        end
    end.

(** [this.socket.emit(event, payload)] *)
Definition socket_emit (m : SignalingMessage) : M unit :=
  fun s =>
    match socket s with
    | None => (Threw "TypeError", s, [])
    | Some _ => (Returned tt, s, [SocketEmit m])
    end.

(** [this.onConnectionStateCallback?.(state)] *)
Definition notify_state (state : string) : M unit :=
  fun s =>
    match onConnectionStateCallback s with
    | None => (Returned tt, s, [])
    | Some cb => (Returned tt, s, [ConnectionStateCallback cb state])
    end.

(** [setupPeerConnection()]: a new connection; the handlers it installs
    run later, on events of the browser. *)
Definition setupPeerConnection : M unit :=
  effect NewRTCPeerConnection ;;
  modify (set_peerConnection (Some (newRTCPeerConnection B))).

(** [setupDataChannel(channel)] *)
Definition setupDataChannel (channel : RTCDataChannel) : M unit :=
  modify (set_dataChannel (Some channel)).

(** The handlers [setupPeerConnection] and [setupDataChannel] install.
    [onicecandidate]: *)
Definition onicecandidate (candidate : option IceCandidate) : M unit :=
  s <- get ;;
  match candidate, socket s with
  | Some c, Some _ => socket_emit (IceCandidateMsg c (remoteAddress s))
  | _, _ => ret tt
  end.

(** [onconnectionstatechange], with the [connectionState] the browser
    reports: *)
Definition onconnectionstatechange (state : string) : M unit :=
  effect (ConsoleLog "P2P Connection state:") ;;
  notify_state state.

(** [onopen] and [onclose] of the data channel: *)
Definition channel_onopen : M unit :=
  effect (ConsoleLog "P2P Data channel opened") ;;
  notify_state "connected".

Definition channel_onclose : M unit :=
  effect (ConsoleLog "P2P Data channel closed") ;;
  notify_state "disconnected".

(** [ondatachannel]: *)
Definition ondatachannel (channel : RTCDataChannel) : M unit :=
  setupDataChannel channel.

(** [constructor(socket, localAddress)] *)
Definition constructor (sock : option Socket) (localAddr : string)
  : WebRTCManager :=
  state_of
    (setupPeerConnection
       {| peerConnection := None; dataChannel := None; localStream := None;
          onMessageCallback := None; onConnectionStateCallback := None;
          socket := sock; localAddress := localAddr; remoteAddress := "";
          isInitiator := false; connectionState := "new";
          pendingCandidates := [] |}).

(** [this.peerConnection.createDataChannel('messages', { ordered: true })],
    assigned to [this.dataChannel]. *)
Definition pc_createDataChannel (name : string) : M RTCDataChannel :=
  fun s =>
    match peerConnection s with
    | None => (Threw "TypeError", s, [])
    | Some pc =>
        match createDataChannel B name pc with
        | Returned (dc, pc') =>
            (Returned dc,
             set_dataChannel (Some dc) (set_peerConnection (Some pc') s),
             [CreateDataChannel name])
        | Threw err => (Threw err, s, [CreateDataChannel name])
        end
    end.

(** [initiateConnection(remoteAddress)] *)
Definition initiateConnection (remote : string) : M unit :=
  try_catch
    (effect (ConsoleLog "Initiating connection to:") ;;
     s <- get ;;
     match peerConnection s with
     | None => effect (ConsoleError "No peer connection available")
     | Some _ =>
         if (remoteAddress s =? remote)
            && ((connectionState s =? "connected")
                || (connectionState s =? "connecting"))
         then effect (ConsoleLog "Already connected/connecting to this peer")
         else
           modify (set_remoteAddress remote) ;;
           modify (set_isInitiator true) ;;
           dc <- pc_createDataChannel "messages" ;;
           setupDataChannel dc ;;
           offer <- pc_create CreateOffer (createOffer B) ;;
           pc_update (SetLocalDescription offer)
             (setLocalDescription B offer) ;;
           effect (ConsoleLog "Local description (offer) set successfully") ;;
           s' <- get ;;
           socket_emit (WebrtcOffer offer remote (localAddress s')) ;;
           modify (set_connectionState "connecting")
     end)
    (fun _ =>
       effect (ConsoleError "Error initiating connection:") ;;
       modify (set_connectionState "failed") ;;
       notify_state "failed").

(** One turn of the loop of [processPendingCandidates]. *)
Definition add_pending (candidate : IceCandidate) : M unit :=
  try_catch
    (pc_update (AddIceCandidate candidate) (addIceCandidate B candidate) ;;
     effect (ConsoleLog "Pending ICE candidate added successfully"))
    (fun _ => effect (ConsoleError "Error adding pending ICE candidate:")).

Fixpoint add_all_pending (cs : list IceCandidate) : M unit :=
  match cs with
  | [] => ret tt
  | candidate :: rest => add_pending candidate ;; add_all_pending rest
  end.

(** [processPendingCandidates()] *)
Definition processPendingCandidates : M unit :=
  effect (ConsoleLog "Processing pending ICE candidates") ;;
  s <- get ;;
  add_all_pending (pendingCandidates s) ;;
  modify (set_pendingCandidates []).

(** [handleOffer(offer, senderAddress)] *)
Definition handleOffer (offer : SessionDescription) (senderAddress : string)
  : M unit :=
  try_catch
    (effect (ConsoleLog "Handling offer from:") ;;
     s <- get ;;
     match peerConnection s with
     | None => effect (ConsoleError "No peer connection available")
     | Some pc =>
         if negb (signalingState pc =? "stable")
            && negb (signalingState pc =? "have-local-offer")
         then effect (ConsoleWarn "Ignoring offer in state:")
         else
           modify (set_remoteAddress senderAddress) ;;
           modify (set_isInitiator false) ;;
           pc_update (SetRemoteDescription offer)
             (setRemoteDescription B offer) ;;
           effect (ConsoleLog "Remote description set successfully") ;;
           answer <- pc_create CreateAnswer (createAnswer B) ;;
           pc_update (SetLocalDescription answer)
             (setLocalDescription B answer) ;;
           effect (ConsoleLog "Local description (answer) set successfully") ;;
           processPendingCandidates ;;
           s' <- get ;;
           socket_emit (WebrtcAnswer answer senderAddress (localAddress s')) ;;
           modify (set_connectionState "connecting")
     end)
    (fun _ =>
       effect (ConsoleError "Error handling offer:") ;;
       modify (set_connectionState "failed") ;;
       notify_state "failed").

(** [handleAnswer(answer)] *)
Definition handleAnswer (answer : SessionDescription) : M unit :=
  try_catch
    (effect (ConsoleLog "Handling answer, Current state:") ;;
     s <- get ;;
     match peerConnection s with
     | None => effect (ConsoleError "No peer connection available")
     | Some pc =>
         if negb (signalingState pc =? "have-local-offer")
         then effect (ConsoleWarn "Ignoring answer in state:")
         else
           pc_update (SetRemoteDescription answer)
             (setRemoteDescription B answer) ;;
           effect (ConsoleLog "Remote description (answer) set successfully") ;;
           processPendingCandidates ;;
           modify (set_connectionState "connecting")
     end)
    (fun _ =>
       effect (ConsoleError "Error handling answer:") ;;
       modify (set_connectionState "failed") ;;
       notify_state "failed").

(** [handleIceCandidate(candidate)] *)
Definition handleIceCandidate (candidate : IceCandidate) : M unit :=
  try_catch
    (s <- get ;;
     match peerConnection s with
     | None =>
         effect (ConsoleError "No peer connection available for ICE candidate")
     | Some pc =>
         match remoteDescription pc with
         | None =>
             effect
               (ConsoleLog "Queueing ICE candidate until remote description is set") ;;
             modify (fun s0 =>
               set_pendingCandidates (pendingCandidates s0 ++ [candidate]) s0)
         | Some _ =>
             pc_update (AddIceCandidate candidate)
               (addIceCandidate B candidate) ;;
             effect (ConsoleLog "ICE candidate added successfully")
         end
     end)
    (fun _ => effect (ConsoleError "Error handling ICE candidate:")).

(** [this.dataChannel && this.dataChannel.readyState === 'open'] *)
Definition channel_open (s : WebRTCManager) : bool :=
  match dataChannel s with
  | Some dc => readyState dc =? "open"
  | None => false
  end.

(** [sendMessage(message)] *)
Definition sendMessage (message : P2PMessage) : M bool :=
  s <- get ;;
  if channel_open s then
    effect (DataChannelSend (JSON_stringify B message)) ;;
    ret true
  else ret false.

Fixpoint add_tracks (ts : list Track) : M unit :=
  match ts with
  | [] => ret tt
  | t :: rest => pc_update (AddTrack t) (addTrack B t) ;; add_tracks rest
  end.

(** [navigator.mediaDevices.getUserMedia({ audio: true, video })], assigned
    to [this.localStream]. *)
Definition acquire_media (video : bool) : M MediaStream :=
  fun s =>
    match getUserMedia B video with
    | Returned stream =>
        (Returned stream, set_localStream (Some stream) s,
         [GetUserMedia video])
    | Threw err => (Threw err, s, [GetUserMedia video])
    end.

(** [startCall(video)] *)
Definition startCall (video : bool) : M unit :=
  try_catch
    (stream <- acquire_media video ;;
     add_tracks (getTracks stream) ;;
     offer <- pc_create CreateOffer (createOffer B) ;;
     pc_update (SetLocalDescription offer) (setLocalDescription B offer) ;;
     s <- get ;;
     socket_emit
       (WebrtcCallOffer offer (remoteAddress s) (localAddress s) video))
    (fun error =>
       effect (ConsoleError "Failed to start call:") ;;
       throw error).

(** [onMessage(callback)] and [onConnectionState(callback)] *)
Definition onMessage (callback : Callback) : M unit :=
  modify (set_onMessageCallback (Some callback)).

Definition onConnectionState (callback : Callback) : M unit :=
  modify (set_onConnectionStateCallback (Some callback)).

(** [getConnectionState()] *)
Definition getConnectionState (s : WebRTCManager) : string :=
  if channel_open s then "connected" else connectionState s.

(** [close()] *)
Definition close_dataChannel : M unit :=
  s <- get ;;
  match dataChannel s with
  | Some _ => effect DataChannelClose ;; modify (set_dataChannel None)
  | None => ret tt
  end.

Fixpoint stop_tracks (ts : list Track) : M unit :=
  match ts with
  | [] => ret tt
  | t :: rest => effect (TrackStop t) ;; stop_tracks rest
  end.

Definition close_localStream : M unit :=
  s <- get ;;
  match localStream s with
  | Some stream =>
      stop_tracks (getTracks stream) ;; modify (set_localStream None)
  | None => ret tt
  end.

Definition close_peerConnection : M unit :=
  s <- get ;;
  match peerConnection s with
  | Some _ => effect PeerConnectionClose ;; modify (set_peerConnection None)
  | None => ret tt
  end.

Definition close : M unit :=
  effect (ConsoleLog "Closing WebRTC connection") ;;
  close_dataChannel ;;
  close_localStream ;;
  close_peerConnection ;;
  modify (set_connectionState "closed") ;;
  modify (set_pendingCandidates []).

(** [reset()] *)
Definition reset : M unit :=
  effect (ConsoleLog "Resetting WebRTC connection") ;;
  close ;;
  setupPeerConnection ;;
  modify (set_connectionState "new").

(** *** Calls and events

    The four methods that take part in a negotiation. *)
Inductive Negotiation :=
| Initiate (remote : string)
| Offer (offer : SessionDescription) (senderAddress : string)
| Answer (answer : SessionDescription)
| Candidate (candidate : IceCandidate).

Definition negotiate (n : Negotiation) : M unit :=
  match n with
  | Initiate r => initiateConnection r
  | Offer o a => handleOffer o a
  | Answer a => handleAnswer a
  | Candidate c => handleIceCandidate c
  end.

(** Every public method that can write a field. *)
Inductive Call :=
| CallNegotiation (n : Negotiation)
| CallSendMessage (message : P2PMessage)
| CallStartCall (video : bool)
| CallOnMessage (callback : Callback)
| CallOnConnectionState (callback : Callback)
| CallClose
| CallReset.

Definition call (c : Call) : M unit :=
  match c with
  | CallNegotiation n => negotiate n
  | CallSendMessage m => sendMessage m ;; ret tt
  | CallStartCall v => startCall v
  | CallOnMessage cb => onMessage cb
  | CallOnConnectionState cb => onConnectionState cb
  | CallClose => close
  | CallReset => reset
  end.

(** A list of negotiation calls, one after the other; a call that throws
    ends the run. *)
Fixpoint negotiate_all (ns : list Negotiation) : M unit :=
  match ns with
  | [] => ret tt
  | n :: rest => negotiate n ;; negotiate_all rest
  end.

(** What the browser does to a session between two calls: the state of
    the data channel or of the peer connection moves on, or the remote
    side's channel arrives ([ondatachannel], which runs
    [setupDataChannel]). The other handlers the class installs write no
    field. *)
Inductive browser_event : WebRTCManager -> WebRTCManager -> Prop :=
| channel_moves s dc dc' :
    dataChannel s = Some dc ->
    browser_event s (set_dataChannel (Some dc') s)
| channel_arrives s pc channel :
    peerConnection s = Some pc ->
    browser_event s (state_of (ondatachannel channel s))
| connection_moves s pc pc' :
    peerConnection s = Some pc ->
    browser_event s (set_peerConnection (Some pc') s).

(** The assignments to a field that the class contains. A method is
    suspended at every [await] and another one may run meanwhile; however
    the methods interleave, the session moves by these writes. *)
Inductive class_write : WebRTCManager -> WebRTCManager -> Prop :=
| write_peerConnection s v : class_write s (set_peerConnection v s)
| write_dataChannel s v : class_write s (set_dataChannel v s)
| write_localStream s v : class_write s (set_localStream v s)
| write_onMessageCallback s v : class_write s (set_onMessageCallback v s)
| write_onConnectionStateCallback s v :
    class_write s (set_onConnectionStateCallback v s)
| write_remoteAddress s v : class_write s (set_remoteAddress v s)
| write_isInitiator s v : class_write s (set_isInitiator v s)
| write_connectionState s v :
    In v ["new"; "connecting"; "failed"; "closed"] ->
    class_write s (set_connectionState v s)
| write_pendingCandidates s v : class_write s (set_pendingCandidates v s).

(** The sessions a program can hold: built by the constructor, then
    changed by calls, by the browser, and by the writes of calls that
    overlap. *)
Inductive reachable : WebRTCManager -> Prop :=
| reach_new sock addr : reachable (constructor sock addr)
| reach_call s c : reachable s -> reachable (state_of (call c s))
| reach_event s s' : reachable s -> browser_event s s' -> reachable s'
| reach_write s s' : reachable s -> class_write s s' -> reachable s'.

End Methods.

(** *** Reading a trace *)

Definition is_console (e : Effect) : bool :=
  match e with
  | ConsoleLog _ | ConsoleWarn _ | ConsoleError _ => true
  | _ => false
  end.

(** The candidates handed to [addIceCandidate], in the order of the calls. *)
Fixpoint candidates_added (t : list Effect) : list IceCandidate :=
  match t with
  | [] => []
  | AddIceCandidate c :: t' => c :: candidates_added t'
  | _ :: t' => candidates_added t'
  end.

(** The part of a trace before its first [setRemoteDescription], and the
    part after it. *)
Fixpoint before_remote (t : list Effect) : list Effect :=
  match t with
  | [] => []
  | SetRemoteDescription _ :: _ => []
  | e :: t' => e :: before_remote t'
  end.

Fixpoint after_remote (t : list Effect) : list Effect :=
  match t with
  | [] => []
  | SetRemoteDescription _ :: t' => t'
  | _ :: t' => after_remote t'
  end.

(** The signaling messages emitted, in order. *)
Fixpoint emitted (t : list Effect) : list SignalingMessage :=
  match t with
  | [] => []
  | SocketEmit m :: t' => m :: emitted t'
  | _ :: t' => emitted t'
  end.

(** The session once [close()] has run on it. *)
Definition closed (s : WebRTCManager) : WebRTCManager := state_of (close s).

(** The fields [close()] writes, as it leaves them. *)
Definition released (s : WebRTCManager) : WebRTCManager :=
  set_pendingCandidates []
    (set_connectionState "closed"
       (set_peerConnection None
          (set_localStream None (set_dataChannel None s)))).

(** A computation keeps a property of the session. *)
Definition preserves {A} (P : WebRTCManager -> Prop) (m : M A) : Prop :=
  forall s, P s -> P (state_of (m s)).

(** *** Two browsers to run the methods on

    [plain_browser] follows the offer/answer states of a peer connection
    and never throws (its [JSON_stringify] writes the fields without
    quotes); [no_media_browser] differs in [getUserMedia], which throws as
    it does when the user denies the microphone; [no_answer_browser]
    differs in [createAnswer], which throws. *)
Definition with_signaling (st : string) (remote local : option SessionDescription)
  : RTCPeerConnection :=
  {| signalingState := st; remoteDescription := remote;
     localDescription := local |}.

Definition plain_browser : Browser :=
  {| newRTCPeerConnection := with_signaling "stable" None None;
     createDataChannel := fun name pc =>
       Returned ({| label := name; readyState := "connecting" |}, pc);
     createOffer := fun _ => Returned {| sd_type := "offer"; sdp := "v=0 o" |};
     createAnswer := fun _ => Returned {| sd_type := "answer"; sdp := "v=0 a" |};
     setLocalDescription := fun d pc =>
       Returned
         (with_signaling
            (if sd_type d =? "offer" then "have-local-offer" else "stable")
            (remoteDescription pc) (Some d));
     setRemoteDescription := fun d pc =>
       Returned
         (with_signaling
            (if sd_type d =? "offer" then "have-remote-offer" else "stable")
            (Some d) (localDescription pc));
     addIceCandidate := fun _ pc => Returned pc;
     addTrack := fun _ pc => Returned pc;
     getUserMedia := fun video =>
       Returned
         {| getTracks := if video then ["audio0"; "video0"] else ["audio0"] |};
     JSON_stringify := fun m =>
       ("{id:" ++ id m ++ ",type:" ++ type m ++ ",content:" ++ content m
        ++ ",sender:" ++ sender m ++ "}")%string |}.

Definition no_media_browser : Browser :=
  {| newRTCPeerConnection := newRTCPeerConnection plain_browser;
     createDataChannel := createDataChannel plain_browser;
     createOffer := createOffer plain_browser;
     createAnswer := createAnswer plain_browser;
     setLocalDescription := setLocalDescription plain_browser;
     setRemoteDescription := setRemoteDescription plain_browser;
     addIceCandidate := addIceCandidate plain_browser;
     addTrack := addTrack plain_browser;
     getUserMedia := fun _ => Threw "NotAllowedError";
     JSON_stringify := JSON_stringify plain_browser |}.

Definition no_answer_browser : Browser :=
  {| newRTCPeerConnection := newRTCPeerConnection plain_browser;
     createDataChannel := createDataChannel plain_browser;
     createOffer := createOffer plain_browser;
     createAnswer := fun _ => Threw "OperationError";
     setLocalDescription := setLocalDescription plain_browser;
     setRemoteDescription := setRemoteDescription plain_browser;
     addIceCandidate := addIceCandidate plain_browser;
     addTrack := addTrack plain_browser;
     getUserMedia := getUserMedia plain_browser;
     JSON_stringify := JSON_stringify plain_browser |}.

(** *** Sessions to run the methods on

    [fresh]: just constructed by "0xA". [offering]: "0xA" has called
    [initiateConnection("0xB")]. [linked]: the data channel of [offering]
    has opened. [answering]: the browser is between a remote offer and the
    local answer. *)
Definition fresh : WebRTCManager := constructor plain_browser (Some 1) "0xA".

Definition offering : WebRTCManager :=
  state_of (initiateConnection plain_browser "0xB" fresh).

Definition linked : WebRTCManager :=
  set_dataChannel (Some {| label := "messages"; readyState := "open" |})
    offering.

Definition remote_offer : SessionDescription :=
  {| sd_type := "offer"; sdp := "v=0 r" |}.

Definition remote_answer : SessionDescription :=
  {| sd_type := "answer"; sdp := "v=0 r" |}.

Definition answering : WebRTCManager :=
  set_peerConnection
    (Some (with_signaling "have-remote-offer" (Some remote_offer) None))
    fresh.

End WebRTC.

(* ===================================================================== *)
(** ** The relay: the call handlers and the contact lists                 *)
(* ===================================================================== *)

Module Calls.

Import Relay.

(** The argument of [startCall]. *)
Record CallData := {
  caller : UserId;
  receiver : UserId;
  call_type : string      (* 'audio' or 'video' *)
}.

Inductive Payload :=
| PUserMessages (msgs : list MessageData)
| PUserContacts (cts : list Contact)
| PIncomingCall (id : SocketId) (from : UserId) (type : string)
| PCallAccepted (type : string)
| PNothing
| PHoldChanged (isOnHold : bool) (from : option UserId)
| POfferFrom (offer : string) (from : option UserId)
| PAnswerFrom (answer : string) (answerer : option UserId)
| PCandidateFrom (candidate : string) (from : option UserId).

Inductive Effect :=
| SocketEmit (sid : SocketId) (event : string) (p : Payload)
    (* socket.emit *)
| IoTo (room : string) (event : string) (p : Payload)
    (* io.to(room).emit *)
| BroadcastFrom (sid : SocketId) (event : string) (p : Payload)
    (* socket.broadcast.emit: every client but the one of [sid] *)
| ConsoleLog (text : string).

(** [socket.on('getMessages', (data) => ...)] *)
Definition on_getMessages (sid : SocketId) (userId : UserId) (st : State)
  : list Effect :=
  [SocketEmit sid "userMessages"
     (PUserMessages (get_or_empty userId (messages st)))].

(** [socket.on('getContacts', (data) => ...)] *)
Definition on_getContacts (sid : SocketId) (userId : UserId) (st : State)
  : list Effect :=
  [SocketEmit sid "userContacts"
     (PUserContacts (get_or_empty userId (userContacts st)))].

(** [socket.on('startCall', (callData) => ...)] *)
Definition on_startCall (sid : SocketId) (callData : CallData) (st : State)
  : list Effect :=
  match find_socket (receiver callData) (connectedUsers st) with
  | Some receiverSocketId =>
      if truthy (Some receiverSocketId) then
        [ConsoleLog "call started"; ConsoleLog "Forwarding call to socket:";
         IoTo receiverSocketId "incomingCall"
           (PIncomingCall sid (caller callData) (call_type callData))]
      else [ConsoleLog "call started"; ConsoleLog "Receiver not found for call:";
            ConsoleLog "Available users:"]
  | None => [ConsoleLog "call started"; ConsoleLog "Receiver not found for call:";
             ConsoleLog "Available users:"]
  end.

(** [socket.on('acceptCall', (data) => ...)] *)
Definition on_acceptCall (sid : SocketId) (callId : string) (type : string)
  : list Effect :=
  [ConsoleLog "Call accepted"; IoTo callId "callAccepted" (PCallAccepted type)].

(** [socket.on('rejectCall', (data) => ...)] *)
Definition on_rejectCall (sid : SocketId) (callId : string) : list Effect :=
  [ConsoleLog "Call rejected"; IoTo callId "callRejected" PNothing].

(** [socket.on('endCall', () => ...)] *)
Definition on_endCall (sid : SocketId) : list Effect :=
  [ConsoleLog "Call ended by:"; BroadcastFrom sid "callEnded" PNothing].

(** [socket.on('callHold', (data) => ...)] *)
Definition on_callHold (sid : SocketId) (target : UserId) (isOnHold : bool)
    (st : State) : list Effect :=
  match find_socket target (connectedUsers st) with
  | Some targetSocketId =>
      if truthy (Some targetSocketId) then
        [ConsoleLog "Call hold status changed:";
         IoTo targetSocketId "callHoldChanged"
           (PHoldChanged isOnHold (map_get sid (socketUserId st)))]
      else [ConsoleLog "Call hold status changed:"]
  | None => [ConsoleLog "Call hold status changed:"]
  end.

(** [socket.on('offer', (data) => ...)] *)
Definition on_offer (sid : SocketId) (offer : string) (to : UserId)
    (st : State) : list Effect :=
  match find_socket to (connectedUsers st) with
  | Some receiverSocketId =>
      if truthy (Some receiverSocketId) then
        [IoTo receiverSocketId "offer"
           (POfferFrom offer (map_get sid (socketUserId st)))]
      else []
  | None => []
  end.

(** [socket.on('answer', (data) => ...)] *)
Definition on_answer (sid : SocketId) (answer : string) (to : UserId)
    (st : State) : list Effect :=
  match find_socket to (connectedUsers st) with
  | Some callerSocketId =>
      if truthy (Some callerSocketId) then
        [IoTo callerSocketId "answer"
           (PAnswerFrom answer (map_get sid (socketUserId st)))]
      else []
  | None => []
  end.

(** [socket.on('ice-candidate', (data) => ...)] *)
Definition on_ice_candidate (sid : SocketId) (candidate : string)
    (target : UserId) (st : State) : list Effect :=
  match find_socket target (connectedUsers st) with
  | Some targetSocketId =>
      if truthy (Some targetSocketId) then
        [IoTo targetSocketId "ice-candidate"
           (PCandidateFrom candidate (map_get sid (socketUserId st)))]
      else []
  | None => []
  end.

(** The clients an effect reaches, among the sockets [all]. A room of
    [io.to] is a socket id: every socket is in the room of its own id. *)
Definition recipients (all : list SocketId) (e : Effect) : list SocketId :=
  match e with
  | SocketEmit sid _ _ => filter (String.eqb sid) all
  | IoTo room _ _ => filter (String.eqb room) all
  | BroadcastFrom sid _ _ => filter (fun s => negb (s =? sid)) all
  | ConsoleLog _ => []
  end.

(** The effects that leave the relay. *)
Definition emits (t : list Effect) : list Effect :=
  filter (fun e => match e with ConsoleLog _ => false | _ => true end) t.

(** The callee's side ([components/AudioCallSimple.tsx]): the handler of
    'incomingCall' keeps the object it receives in [incomingCall];
    [acceptCall] and [rejectCall] emit its [id] back as [callId], and
    nothing when there is no incoming call. The socket is taken to be
    there. *)
Record IncomingCall := {
  ic_id : string;
  ic_caller : string;
  ic_type : string
}.

Definition on_incomingCall (p : Payload) : option IncomingCall :=
  match p with
  | PIncomingCall id from type =>
      Some {| ic_id := id; ic_caller := from; ic_type := type |}
  | _ => None
  end.

Inductive ClientEmit :=
| EmitAcceptCall (callId type : string)
| EmitRejectCall (callId : string).

Definition acceptCall (incomingCall : option IncomingCall)
  : option ClientEmit :=
  match incomingCall with
  | Some call => Some (EmitAcceptCall (ic_id call) (ic_type call))
  | None => None
  end.

Definition rejectCall (incomingCall : option IncomingCall)
  : option ClientEmit :=
  match incomingCall with
  | Some call => Some (EmitRejectCall (ic_id call))
  | None => None
  end.

(** The relay on what the callee's client emitted on the socket [sid]. *)
Definition on_client_emit (sid : SocketId) (e : option ClientEmit)
  : list Effect :=
  match e with
  | Some (EmitAcceptCall callId type) => on_acceptCall sid callId type
  | Some (EmitRejectCall callId) => on_rejectCall sid callId
  | None => []
  end.

(** *** [updateUserContacts]

    A contact of the list of a user, with the fields the helper writes and
    the ones the spread [...contacts[i]] carries over. *)
Record ContactEntry := {
  address : string;
  lastMessage : string;
  timestamp : nat;
  others : list (string * string)
}.

Record ChatMessage := {
  content : string;
  sent_at : nat
}.

(** [contacts.findIndex(c => c.address === contactAddress)]; [None] is
    the [-1] of JavaScript. *)
Fixpoint findIndex (contactAddress : string) (contacts : list ContactEntry)
  : option nat :=
  match contacts with
  | [] => None
  | c :: rest =>
      if address c =? contactAddress then Some 0
      else option_map S (findIndex contactAddress rest)
  end.

(** [contacts[i] = x] for an index inside the array. *)
Fixpoint assign (i : nat) (x : ContactEntry) (contacts : list ContactEntry)
  : list ContactEntry :=
  match contacts, i with
  | [], _ => []
  | _ :: rest, 0 => x :: rest
  | c :: rest, S j => c :: assign j x rest
  end.

(** The body of [updateUserContacts] on the array of the user. *)
Definition update_contacts (contactAddress : string) (message : ChatMessage)
    (contacts : list ContactEntry) : list ContactEntry :=
  match findIndex contactAddress contacts with
  | Some existingContactIndex =>
      match nth_error contacts existingContactIndex with
      | Some old =>
          assign existingContactIndex
            {| address := address old; lastMessage := content message;
               timestamp := sent_at message; others := others old |}
            contacts
      | None => contacts
      end
  | None =>
      contacts ++
      [{| address := contactAddress; lastMessage := content message;
          timestamp := sent_at message; others := [] |}]
  end.

(** [updateUserContacts(userId, contactAddress, message)] *)
Definition updateUserContacts (userId contactAddress : string)
    (message : ChatMessage) (userContacts : JsMap (list ContactEntry))
  : JsMap (list ContactEntry) :=
  map_set userId
    (update_contacts contactAddress message (get_or_empty userId userContacts))
    userContacts.

(** The contact of an address in a list. *)
Definition contact_of (a : string) (contacts : list ContactEntry)
  : option ContactEntry :=
  find (fun c => address c =? a) contacts.

End Calls.

(* ===================================================================== *)
(** ** From a session to the peer's session, through the relay            *)
(* ===================================================================== *)

Module Wire.

Import Relay.

(** The object a client gets from the relay for a signaling message. *)
Inductive Body :=
| BOffer (offer : WebRTC.SessionDescription) (sender : string)
| BAnswer (answer : WebRTC.SessionDescription) (sender : string)
| BCallOffer (offer : WebRTC.SessionDescription) (sender : string)
    (hasVideo : bool)
| BCandidate (candidate : string) (sender : option string).

Record Delivery := {
  to : SocketId;
  event : string;
  body : Body
}.

(** [io.to(targetSocketId).emit(event, body)] when the target resolves
    to a truthy socket id, nothing otherwise. *)
Definition route (target : UserId) (ev : string) (b : Body) (st : State)
  : option Delivery :=
  match find_socket target (connectedUsers st) with
  | Some targetSocketId =>
      if truthy (Some targetSocketId) then
        Some {| to := targetSocketId; event := ev; body := b |}
      else None
  | None => None
  end.

(** The relay on a message the class [WebRTCManager] emitted on the socket
    [sid]: the handler registered in [server.js] for the event of the
    message, on the fields the class has put in the object. The class
    emits its candidates as 'ice-candidate', so it is the handler of that
    event that runs on them. *)
Definition relay (sid : SocketId) (m : WebRTC.SignalingMessage) (st : State)
  : option Delivery :=
  match m with
  | WebRTC.WebrtcOffer offer target sender =>
      route target "webrtc-offer" (BOffer offer sender) st
  | WebRTC.WebrtcAnswer answer target sender =>
      route target "webrtc-answer" (BAnswer answer sender) st
  | WebRTC.WebrtcCallOffer offer target sender hasVideo =>
      route target "webrtc-call-offer" (BCallOffer offer sender hasVideo) st
  | WebRTC.IceCandidateMsg candidate target =>
      route target "ice-candidate"
        (BCandidate candidate (map_get sid (socketUserId st))) st
  end.

(** [setupSignalingHandlers] of the P2P context ([WalletContext.tsx]): the
    events it subscribes to, and what each handler calls. [connections] is
    the map of sessions by remote address that the handlers read. The
    handler of 'webrtc-offer' takes the session of [data.sender] from
    [getOrCreateConnection], which makes one when there is none, and calls
    [handleOffer] on it. The handlers of 'webrtc-answer' and
    'webrtc-ice-candidate' call their method on
    [connections.get(data.sender)], and nothing when that is [undefined].
    The handler of 'webrtc-call-offer' calls no method. *)
Definition subscriptions : list string :=
  ["webrtc-offer"; "webrtc-answer"; "webrtc-ice-candidate";
   "webrtc-call-offer"].

(** The call a handler makes: the key of the session in [connections] and
    the method. *)
Record Dispatch := {
  session_key : string;
  method : WebRTC.Negotiation
}.

(** [if (connection) { await connection.m(...) }] on
    [connections.get(sender)] *)
Definition on_stored (connections : JsMap WebRTC.WebRTCManager)
    (sender : string) (n : WebRTC.Negotiation) : option Dispatch :=
  match map_get sender connections with
  | Some _ => Some {| session_key := sender; method := n |}
  | None => None
  end.

Definition on_signal (connections : JsMap WebRTC.WebRTCManager)
    (d : Delivery) : option Dispatch :=
  if event d =? "webrtc-offer" then
    match body d with
    | BOffer offer sender =>
        Some {| session_key := sender;
                method := WebRTC.Offer offer sender |}
    | _ => None
    end
  else if event d =? "webrtc-answer" then
    match body d with
    | BAnswer answer sender =>
        on_stored connections sender (WebRTC.Answer answer)
    | _ => None
    end
  else if event d =? "webrtc-ice-candidate" then
    match body d with
    | BCandidate candidate (Some sender) =>
        on_stored connections sender (WebRTC.Candidate candidate)
    | _ => None
    end
  else None.

End Wire.

(* ===================================================================== *)
(** ** Encryption of the local history ([EncryptionManager],
       [SecureStorage])                                                   *)
(* ===================================================================== *)

Module Encryption.

Import Relay.

(** The platform: [TextEncoder], [TextDecoder], [crypto.subtle], [btoa],
    [atob] and [JSON]. [None] stands for a call that throws. A binary
    string of JavaScript, with char codes below 256, is a [string]. *)
Record Platform (Key V : Type) := {
  encode : string -> list Byte.byte;
  decode : list Byte.byte -> string;
  deriveKey : string -> string -> Key;
  aes_gcm_encrypt : Key -> list Byte.byte -> list Byte.byte -> list Byte.byte;
  aes_gcm_decrypt :
    Key -> list Byte.byte -> list Byte.byte -> option (list Byte.byte);
  btoa : string -> string;
  atob : string -> option string;
  JSON_stringify : V -> string;
  JSON_parse : string -> option V
}.

Arguments encode {Key V} _ _.
Arguments decode {Key V} _ _.
Arguments deriveKey {Key V} _ _ _.
Arguments aes_gcm_encrypt {Key V} _ _ _ _.
Arguments aes_gcm_decrypt {Key V} _ _ _ _.
Arguments btoa {Key V} _ _.
Arguments atob {Key V} _ _.
Arguments JSON_stringify {Key V} _ _.
Arguments JSON_parse {Key V} _ _.

Section Manager.

Context {Key V : Type}.
Variable P : Platform Key V.

(** [initializeKey(walletAddress, signature)]: the new [cryptoKey]. *)
Definition initializeKey (walletAddress signature : string) : option Key :=
  Some (deriveKey P (substring 0 32 signature) walletAddress).

(** [encrypt(data)], with the twelve bytes [crypto.getRandomValues] gave
    for [iv]. *)
Definition encrypt (cryptoKey : option Key) (iv : list Byte.byte)
    (data : string) : WebRTC.Outcome string :=
  match cryptoKey with
  | None => WebRTC.Threw "Encryption key not initialized"
  | Some key =>
      let encodedData := encode P data in
      let encryptedData := aes_gcm_encrypt P key iv encodedData in
      let combined := iv ++ encryptedData in
      let binaryString := string_of_list_byte combined in
      WebRTC.Returned (btoa P binaryString)
  end.

(** [decrypt(encryptedData)] *)
Definition decrypt (cryptoKey : option Key) (encryptedData : string)
  : WebRTC.Outcome string :=
  match cryptoKey with
  | None => WebRTC.Threw "Encryption key not initialized"
  | Some key =>
      match atob P encryptedData with
      | None => WebRTC.Threw "InvalidCharacterError"
      | Some binaryString =>
          let combined := list_byte_of_string binaryString in
          let iv := firstn 12 combined in
          let data := skipn 12 combined in
          match aes_gcm_decrypt P key iv data with
          | None => WebRTC.Threw "OperationError"
          | Some decryptedData => WebRTC.Returned (decode P decryptedData)
          end
      end
  end.

(** [localStorage]: a string for some keys. *)
Definition LocalStorage := JsMap string.

(** [SecureStorage.setItem(key, value)] *)
Definition setItem (cryptoKey : option Key) (iv : list Byte.byte)
    (key : string) (value : V) (storage : LocalStorage)
  : WebRTC.Outcome LocalStorage :=
  let serialized := JSON_stringify P value in
  match encrypt cryptoKey iv serialized with
  | WebRTC.Returned encrypted =>
      WebRTC.Returned (map_set key encrypted storage)
  | WebRTC.Threw e => WebRTC.Threw e
  end.

(** [SecureStorage.getItem(key)]: the value or [null], and whether
    'Failed to decrypt data:' went to the console. *)
Definition getItem (cryptoKey : option Key) (key : string)
    (storage : LocalStorage) : option V * bool :=
  match map_get key storage with
  | None => (None, false)
  | Some encrypted =>
      if encrypted =? "" then (None, false)
      else
        match decrypt cryptoKey encrypted with
        | WebRTC.Returned decrypted =>
            match JSON_parse P decrypted with
            | Some value => (Some value, false)
            | None => (None, true)
            end
        | WebRTC.Threw _ => (None, true)
        end
  end.

(** [SecureStorage.removeItem(key)] and [SecureStorage.clear()] *)
Definition removeItem (key : string) (storage : LocalStorage)
  : LocalStorage :=
  map_delete key storage.

Definition clear (storage : LocalStorage) : LocalStorage := [].

End Manager.

(** A platform to run the code on: UTF-8 is the identity on the bytes of
    a string, the cipher puts a tag byte in front of the data and checks
    it, base 64 and JSON are the identity on strings. *)
Definition toy_platform : Platform unit string :=
  {| encode := list_byte_of_string;
     decode := string_of_list_byte;
     deriveKey := fun _ _ => tt;
     aes_gcm_encrypt := fun _ _ data => Byte.x2a :: data;
     aes_gcm_decrypt := fun _ _ data =>
       match data with
       | Byte.x2a :: rest => Some rest
       | _ => None
       end;
     btoa := fun s => s;
     atob := fun s => Some s;
     JSON_stringify := fun v => v;
     JSON_parse := fun s => Some s |}.

Definition toy_iv : list Byte.byte := repeat Byte.x01 12.

End Encryption.

(** More to read in the trace of a session. *)
Module Reading.

Import WebRTC.

(** The tracks handed to [track.stop()], in the order of the calls. *)
Fixpoint tracks_stopped (t : list Effect) : list string :=
  match t with
  | [] => []
  | TrackStop x :: t' => x :: tracks_stopped t'
  | _ :: t' => tracks_stopped t'
  end.

(** The states [connectionState] and the data channel can show through
    [getConnectionState()]. *)
Definition shown_states : list string :=
  ["new"; "connecting"; "connected"; "failed"; "closed"].

(** A session of "0xA" with "0xB" that was connected and then got a new
    offer the browser could not answer: [initiateConnection], the answer,
    the channel opening, then [handleOffer] in a browser whose
    [createAnswer] throws. *)
Definition renegotiation_failed : WebRTCManager :=
  state_of
    (call no_answer_browser (CallNegotiation (Offer remote_offer "0xB"))
       (set_dataChannel
          (Some {| label := "messages"; readyState := "open" |})
          (state_of
             (call no_answer_browser (CallNegotiation (Answer remote_answer))
                (state_of
                   (call no_answer_browser (CallNegotiation (Initiate "0xB"))
                      (constructor no_answer_browser (Some 1) "0xA"))))))).

End Reading.

(* ===================================================================== *)
(** ** The directory of the relay                                         *)
(* ===================================================================== *)

Section Directory.

Import Relay.

Implicit Types (m : JsMap UserId) (st : State) (sid : SocketId)
  (userId : UserId).

(** With keys held once, [delete] drops every entry of the key. *)
Lemma map_delete_filter {V} (k : string) (m : JsMap V) :
  map_wf m -> map_delete k m = filter (fun e => negb (fst e =? k)) m.
Proof.
  unfold map_wf, map_keys.
  induction m as [|[k' v'] m IH]; simpl; intros Hwf; [reflexivity|].
  inversion Hwf as [|? ? Hnotin Hwf']; subst.
  destruct (String.eqb_spec k' k) as [->|Hne]; simpl.
  - symmetry. apply forallb_filter_id. apply forallb_forall.
    intros [k2 v2] Hin. simpl.
    destruct (String.eqb_spec k2 k) as [->|]; [|reflexivity].
    exfalso. apply Hnotin. change k with (fst (k, v2)). now apply in_map.
  - now rewrite IH.
Qed.

Lemma map_wf_filter {V} (f : string * V -> bool) (m : JsMap V) :
  map_wf m -> map_wf (filter f m).
Proof.
  unfold map_wf, map_keys.
  induction m as [|e m IH]; simpl; intros Hwf; [constructor|].
  inversion Hwf as [|? ? Hnotin Hwf']; subst.
  destruct (f e); simpl; [|now apply IH].
  constructor; [|now apply IH].
  intros Hin. apply Hnotin. apply in_map_iff in Hin as [x [Hx Hin]].
  apply filter_In in Hin as [Hin _]. rewrite <- Hx. now apply in_map.
Qed.

Lemma map_keys_set {V} (k : string) (v : V) (m : JsMap V) :
  forall x, In x (map_keys (map_set k v m)) <-> x = k \/ In x (map_keys m).
Proof.
  unfold map_keys. induction m as [|[k' v'] m IH]; simpl; intros x.
  - intuition congruence.
  - destruct (String.eqb_spec k' k) as [->|Hne]; simpl.
    + intuition congruence.
    + rewrite IH. intuition congruence.
Qed.

Lemma map_wf_set {V} (k : string) (v : V) (m : JsMap V) :
  map_wf m -> map_wf (map_set k v m).
Proof.
  unfold map_wf. induction m as [|[k' v'] m IH]; simpl; intros Hwf.
  - repeat constructor. intros [].
  - unfold map_keys in *. simpl in Hwf.
    inversion Hwf as [|? ? Hnotin Hwf']; subst.
    destruct (String.eqb_spec k' k) as [->|Hne]; simpl.
    + now constructor.
    + constructor; [|now apply IH].
      intros Hin. apply (map_keys_set k v m) in Hin as [->|Hin]; tauto.
Qed.

Lemma map_wf_delete {V} (k : string) (m : JsMap V) :
  map_wf m -> map_wf (map_delete k m).
Proof.
  intros Hwf. rewrite map_delete_filter by assumption.
  now apply map_wf_filter.
Qed.

(** Two entries of a map with the same key are the same entry. *)
Lemma map_wf_same_key {V} (m : JsMap V) (e1 e2 : string * V) :
  map_wf m -> In e1 m -> In e2 m -> fst e1 = fst e2 -> e1 = e2.
Proof.
  unfold map_wf, map_keys.
  induction m as [|e m IH]; simpl; intros Hwf H1 H2 Hk; [contradiction|].
  inversion Hwf as [|? ? Hnotin Hwf']; subst.
  destruct H1 as [->|H1], H2 as [->|H2]; auto.
  - exfalso. apply Hnotin. rewrite Hk. now apply in_map.
  - exfalso. apply Hnotin. rewrite <- Hk. now apply in_map.
Qed.

Lemma filter_filter {A} (f g : A -> bool) (l : list A) :
  filter f (filter g l) = filter (fun x => g x && f x) l.
Proof.
  induction l as [|a l IH]; simpl; [reflexivity|].
  destruct (g a); simpl; [destruct (f a)|]; now rewrite ?IH.
Qed.

Lemma filter_swap {A} (f g : A -> bool) (l : list A) :
  filter f (filter g l) = filter g (filter f l).
Proof.
  rewrite !filter_filter. apply filter_ext. intros x. apply andb_comm.
Qed.

Lemma filter_none {A} (f : A -> bool) (l : list A) :
  (forall x, In x l -> f x = false) -> filter f l = [].
Proof.
  induction l as [|a l IH]; simpl; intros Hf; [reflexivity|].
  rewrite (Hf a) by now left. apply IH. intros x Hx. apply Hf. now right.
Qed.

(** The loop, entry by entry: it removes the keys of the stale entries it
    still has to visit. *)
Lemma evict_loop_filter todo sid userId m :
  map_wf m ->
  fst (evict_loop todo sid userId m) =
  filter (fun e =>
            negb (existsb (fun t => stale sid userId t && (fst e =? fst t))
                    todo)) m.
Proof.
  revert m. induction todo as [|[k v] todo IH]; simpl; intros m Hwf.
  - symmetry. apply forallb_filter_id. now apply forallb_forall.
  - unfold stale at 1. simpl.
    destruct ((v =? userId) && negb (k =? sid)) eqn:Hs; simpl.
    + specialize (IH (map_delete k m) (map_wf_delete k m Hwf)).
      destruct (evict_loop todo sid userId (map_delete k m)) as [m' lg].
      simpl in *. rewrite IH, map_delete_filter by assumption.
      rewrite filter_filter. apply filter_ext. intros e.
      now rewrite negb_orb.
    + now apply IH.
Qed.

(** The whole loop keeps exactly the entries that are not stale. *)
Lemma evict_filter sid userId m :
  map_wf m ->
  fst (evict sid userId m) = filter (fun e => negb (stale sid userId e)) m.
Proof.
  intros Hwf. unfold evict. rewrite evict_loop_filter by assumption.
  apply filter_ext_in. intros e He. f_equal.
  destruct (stale sid userId e) eqn:Hst.
  - apply existsb_exists. exists e. split; [assumption|].
    now rewrite Hst, String.eqb_refl.
  - match goal with |- ?x = false => destruct x eqn:Hex end; [|reflexivity].
    apply existsb_exists in Hex as [t [Ht Hand]].
    apply andb_true_iff in Hand as [Hstale Hk].
    apply String.eqb_eq in Hk.
    rewrite (map_wf_same_key m e t Hwf He Ht Hk) in Hst. congruence.
Qed.

Lemma map_wf_evict sid userId m :
  map_wf m -> map_wf (fst (evict sid userId m)).
Proof.
  intros Hwf. rewrite evict_filter by assumption. now apply map_wf_filter.
Qed.

(** [find] returns the head of what [filter] keeps. *)
Lemma find_socket_entries userId m :
  find_socket userId m = option_map fst (hd_error (entries_of userId m)).
Proof.
  unfold find_socket, entries_of.
  induction m as [|e m IH]; simpl; [reflexivity|].
  destruct (String.eqb (snd e) userId); simpl; [reflexivity|exact IH].
Qed.

(** Once no other socket holds [userId], [set] leaves one entry for it. *)
Lemma entries_of_set sid userId m :
  map_wf m ->
  (forall e, In e m -> snd e = userId -> fst e = sid) ->
  entries_of userId (map_set sid userId m) = [(sid, userId)].
Proof.
  unfold map_wf, map_keys, entries_of.
  induction m as [|[k v] m IH]; simpl; intros Hwf Hown.
  - now rewrite String.eqb_refl.
  - inversion Hwf as [|? ? Hnotin Hwf']; subst.
    destruct (String.eqb_spec k sid) as [->|Hne]; simpl.
    + rewrite String.eqb_refl. f_equal.
      apply filter_none. intros [k2 v2] Hin. simpl.
      destruct (String.eqb_spec v2 userId) as [->|Hv]; [|reflexivity].
      exfalso. apply Hnotin.
      rewrite <- (Hown (k2, userId)); [|now right|reflexivity].
      change k2 with (fst (k2, userId)). now apply in_map.
    + destruct (String.eqb_spec v userId) as [->|Hv].
      * exfalso. apply Hne. apply (Hown (k, userId)); [now left|reflexivity].
      * apply IH; [assumption|]. intros e He. apply Hown. now right.
Qed.

Lemma join_connectedUsers sid userId st :
  connectedUsers (fst (join sid userId st)) =
  map_set sid userId (join_evicted sid userId st).
Proof.
  unfold join, join_evicted.
  destruct (evict sid userId (connectedUsers st)) as [evicted lg].
  reflexivity.
Qed.

(** [join] keeps the keys of the directory distinct. *)
Lemma map_wf_join sid userId st :
  map_wf (connectedUsers st) ->
  map_wf (connectedUsers (fst (join sid userId st))).
Proof.
  intros Hwf. rewrite join_connectedUsers.
  apply map_wf_set. now apply map_wf_evict.
Qed.

Lemma map_wf_disconnect sid st :
  map_wf (connectedUsers st) ->
  map_wf (connectedUsers (fst (disconnect sid st))).
Proof. intros Hwf. simpl. now apply map_wf_delete. Qed.

(** After [join], the user has the one entry of the joining socket. *)
Lemma join_entries sid userId st :
  map_wf (connectedUsers st) ->
  entries_of userId (connectedUsers (fst (join sid userId st))) =
  [(sid, userId)].
Proof.
  intros Hwf. rewrite join_connectedUsers. unfold join_evicted.
  apply entries_of_set; [now apply map_wf_evict|].
  rewrite evict_filter by assumption.
  intros e He Hu. apply filter_In in He as [_ Hkeep].
  unfold stale in Hkeep. rewrite Hu, String.eqb_refl in Hkeep. simpl in Hkeep.
  rewrite negb_involutive in Hkeep. now apply String.eqb_eq.
Qed.

(** The loop of [join] leaves no entry of the user on another socket. *)
Lemma evicted_entries sid userId m :
  map_wf m ->
  entries_of userId (fst (evict sid userId m)) =
  filter (fun e => fst e =? sid) (entries_of userId m).
Proof.
  intros Hwf. rewrite evict_filter by assumption.
  unfold entries_of. rewrite !filter_filter. apply filter_ext.
  intros e. unfold stale.
  destruct (String.eqb (snd e) userId), (String.eqb (fst e) sid); reflexivity.
Qed.

Lemma find_socket_absent userId m :
  entries_of userId m = [] -> find_socket userId m = None.
Proof. intros H. now rewrite find_socket_entries, H. Qed.

(** A user who joined on a socket that then disconnected has no entry. *)
Lemma join_disconnect_absent sid userId st :
  map_wf (connectedUsers st) ->
  entries_of userId
    (connectedUsers (fst (disconnect sid (fst (join sid userId st))))) = [].
Proof.
  intros Hwf. simpl connectedUsers at 1.
  rewrite map_delete_filter by now apply map_wf_join.
  unfold entries_of. rewrite filter_swap.
  fold (entries_of userId (connectedUsers (fst (join sid userId st)))).
  rewrite join_entries by assumption. simpl.
  now rewrite String.eqb_refl.
Qed.

(** C1. For every identity [A] and sockets [e1 <> e2], [join] of [A] on
    [e1] followed by [join] of [A] on [e2] leaves a directory that resolves
    [A] to [e2] and holds exactly one entry for [A]. The entry under [e1]
    is gone after the loop of the second [join], before its
    [connectedUsers.set]: between the two the directory has no entry for
    [A], so at each of the three points it has at most one. *)
Theorem join_twice_keeps_one_entry :
  forall st (A e1 e2 : string),
    map_wf (connectedUsers st) ->
    e1 <> e2 ->
    let st1 := fst (join e1 A st) in
    let st2 := fst (join e2 A st1) in
    find_socket A (connectedUsers st2) = Some e2 /\
    entries_of A (connectedUsers st2) = [(e2, A)] /\
    entries_of A (connectedUsers st1) = [(e1, A)] /\
    entries_of A (join_evicted e2 A st1) = [] /\
    connectedUsers st2 = map_set e2 A (join_evicted e2 A st1).
Proof.
  intros st A e1 e2 Hwf Hne st1 st2.
  assert (Hwf1 : map_wf (connectedUsers st1)) by now apply map_wf_join.
  assert (H1 : entries_of A (connectedUsers st1) = [(e1, A)])
    by now apply join_entries.
  assert (H2 : entries_of A (connectedUsers st2) = [(e2, A)])
    by now apply join_entries.
  repeat split.
  - now rewrite find_socket_entries, H2.
  - exact H2.
  - exact H1.
  - unfold join_evicted. rewrite evicted_entries, H1 by assumption. simpl.
    now rewrite (proj2 (String.eqb_neq e1 e2) Hne).
  - apply join_connectedUsers.
Qed.

Lemma join_twice_keeps_one_entry_witness :
  let st1 := fst (join "sock1" "0xA" initial) in
  let st2 := fst (join "sock2" "0xA" st1) in
  find_socket "0xA" (connectedUsers st2) = Some "sock2" /\
  entries_of "0xA" (connectedUsers st2) = [("sock2", "0xA")] /\
  entries_of "0xA" (connectedUsers st1) = [("sock1", "0xA")] /\
  entries_of "0xA" (join_evicted "sock2" "0xA" st1) = [] /\
  connectedUsers st2 = map_set "sock2" "0xA" (join_evicted "sock2" "0xA" st1).
Proof.
  apply (join_twice_keeps_one_entry initial "0xA" "sock1" "sock2").
  - constructor.
  - discriminate.
Defined.

(** What the forwarding handlers do when the target has no entry. *)
Lemma forward_absent sid f st :
  find_socket (target_of f) (connectedUsers st) = None ->
  fst (forward sid f st) = st /\
  filter is_emit (snd (forward sid f st)) = [].
Proof.
  destruct f; simpl; intros Hnone;
    unfold on_webrtc_offer, on_webrtc_answer, on_sendMessage,
      on_webrtc_ice_candidate, on_webrtc_call_offer;
    rewrite Hnone; split; reflexivity.
Qed.

(** C3 (as the code has it). A forwarded message whose target has no
    entry in the directory is delivered to no socket and changes nothing
    in the relay: every effect of the handler is a line on the relay's own
    console. Nothing is sent to the sender either. *)
Theorem forward_absent_target_only_logs :
  forall st (sid : string) (f : Forwarded),
    entries_of (target_of f) (connectedUsers st) = [] ->
    fst (forward sid f st) = st /\
    filter is_emit (snd (forward sid f st)) = [] /\
    filter (reaches sid) (snd (forward sid f st)) = [].
Proof.
  intros st sid f Habs.
  destruct (forward_absent sid f st (find_socket_absent _ _ Habs))
    as [Hst Hemit].
  repeat split; try assumption.
  revert Hemit. generalize (snd (forward sid f st)).
  induction l as [|e l IH]; simpl; intros Hemit; [reflexivity|].
  destruct e; simpl in *; try discriminate; now apply IH.
Qed.

Lemma forward_absent_target_only_logs_witness :
  let st := fst (disconnect "sockB" (fst (join "sockB" "0xB" initial))) in
  let f := FwdOffer "sdp" "0xB" "0xA" in
  fst (forward "sockA" f st) = st /\
  filter is_emit (snd (forward "sockA" f st)) = [] /\
  filter (reaches "sockA") (snd (forward "sockA" f st)) = [].
Proof.
  apply forward_absent_target_only_logs.
  apply join_disconnect_absent. constructor.
Defined.

(** C3 as the specification words it fails: "0xB" joins and leaves, "0xA"
    stays connected on "sockA" and sends a message for "0xB". The handler
    delivers it nowhere, and no effect of it reaches "sockA": the sender
    gets no report. *)
Lemma forward_absent_target_no_report :
  let st :=
    fst (disconnect "sockB"
           (fst (join "sockB" "0xB" (fst (join "sockA" "0xA" initial))))) in
  let m := {| md_sender := "0xA"; md_receiver := "0xB";
              md_content := "hello" |} in
  find_socket "0xA" (connectedUsers st) = Some "sockA" /\
  find_socket "0xB" (connectedUsers st) = None /\
  existsb (reaches "sockA") (snd (forward "sockA" (FwdMessage m) st)) = false /\
  snd (forward "sockA" (FwdMessage m) st) =
  [ConsoleLog "Message received"; ConsoleLog "Message content:";
   ConsoleLog "Receiver not found online:";
   ConsoleLog "Currently connected users:"].
Proof. repeat split. Qed.

(** *** One entry per identity, in every directory the relay can reach *)

Lemma entries_of_filter_le userId (f : string * string -> bool) m :
  length (entries_of userId (filter f m)) <= length (entries_of userId m).
Proof.
  unfold entries_of. rewrite filter_swap. apply filter_length_le.
Qed.

Lemma entries_of_set_other_le sid userId other m :
  other <> userId ->
  length (entries_of other (map_set sid userId m))
  <= length (entries_of other m).
Proof.
  intros Hne. apply String.eqb_neq in Hne. rewrite String.eqb_sym in Hne.
  unfold entries_of.
  induction m as [|[k v] m IH]; cbn.
  - rewrite Hne. cbn. lia.
  - destruct (String.eqb k sid); cbn.
    + rewrite Hne. destruct (String.eqb v other); cbn; lia.
    + destruct (String.eqb v other); cbn; lia.
Qed.

Lemma join_entries_le sid userId other st :
  map_wf (connectedUsers st) ->
  length (entries_of other (connectedUsers st)) <= 1 ->
  length (entries_of other (connectedUsers (fst (join sid userId st)))) <= 1.
Proof.
  intros Hwf Hone. destruct (String.eqb_spec other userId) as [->|Hne].
  - now rewrite join_entries.
  - rewrite join_connectedUsers. unfold join_evicted.
    etransitivity; [now apply entries_of_set_other_le|].
    rewrite evict_filter by assumption.
    etransitivity; [apply entries_of_filter_le|assumption].
Qed.

Lemma forward_state sid f st : fst (forward sid f st) = st.
Proof.
  destruct f; cbn;
    unfold on_webrtc_offer, on_webrtc_answer, on_sendMessage,
      on_webrtc_ice_candidate, on_webrtc_call_offer;
    destruct (find_socket _ _) as [tgt|]; try destruct (truthy _);
    reflexivity.
Qed.

Lemma handle_invariant ev st :
  map_wf (connectedUsers st) ->
  (forall u, length (entries_of u (connectedUsers st)) <= 1) ->
  map_wf (connectedUsers (fst (handle ev st))) /\
  (forall u, length (entries_of u (connectedUsers (fst (handle ev st)))) <= 1).
Proof.
  intros Hwf Hone. destruct ev as [sid userId|sid|sid f]; cbn [handle].
  - split; [now apply map_wf_join|].
    intros u. now apply join_entries_le.
  - split; [now apply map_wf_disconnect|].
    intros u. cbn. rewrite map_delete_filter by assumption.
    etransitivity; [apply entries_of_filter_le|apply Hone].
  - now rewrite forward_state.
Qed.

(** X1. Whatever the clients do, starting from the empty directory, the
    directory holds every socket id once and at most one entry for each
    identity. *)
Theorem directory_one_entry_per_identity :
  forall (evs : list Event) (userId : string),
    map_wf (connectedUsers (run evs initial)) /\
    length (entries_of userId (connectedUsers (run evs initial))) <= 1.
Proof.
  intros evs userId.
  assert (Hrun : forall st,
             map_wf (connectedUsers st) ->
             (forall u, length (entries_of u (connectedUsers st)) <= 1) ->
             map_wf (connectedUsers (run evs st)) /\
             (forall u,
                 length (entries_of u (connectedUsers (run evs st))) <= 1)).
  { induction evs as [|ev evs IH]; intros st Hwf Hone; cbn [run].
    - now split.
    - destruct (handle_invariant ev st Hwf Hone) as [Hwf' Hone'].
      now apply IH. }
  destruct (Hrun initial) as [Hwf Hone].
  - constructor.
  - intros u. cbn. lia.
  - split; [assumption|apply Hone].
Qed.

(** X3. [disconnect] of a socket that has no entry, because it never
    joined or a later [join] of its user evicted it, leaves the directory
    as it is. *)
Theorem disconnect_without_entry_is_noop :
  forall st (sid : string),
    map_get sid (connectedUsers st) = None ->
    connectedUsers (fst (disconnect sid st)) = connectedUsers st.
Proof.
  intros st sid. cbn. generalize (connectedUsers st) as m.
  induction m as [|[k v] m IH]; cbn; [reflexivity|].
  destruct (String.eqb k sid); [discriminate|].
  intros Hnone. now rewrite IH.
Qed.

Lemma disconnect_without_entry_is_noop_witness :
  let st := fst (join "sock2" "0xA" (fst (join "sock1" "0xA" initial))) in
  connectedUsers (fst (disconnect "sock1" st)) = connectedUsers st.
Proof.
  apply disconnect_without_entry_is_noop. reflexivity.
Defined.

End Directory.

(* ===================================================================== *)
(** ** The peer session                                                   *)
(* ===================================================================== *)

Section Session.

Import WebRTC.

Variable B : Browser.

Implicit Types (s : WebRTCManager) (t : list Effect).

(** Unfolds the monad down to matches on the fields and on the browser. *)
Ltac run :=
  unfold bind, try_catch, ret, throw, get, modify, effect, pc_update,
    pc_create, socket_emit, notify_state, setupDataChannel,
    setupPeerConnection, pc_createDataChannel, acquire_media, state_of,
    outcome_of, effects_of in *;
  cbn in *.

Lemma stop_tracks_run (ts : list string) s :
  stop_tracks ts s = (Returned tt, s, map TrackStop ts).
Proof.
  revert s. induction ts as [|x ts IH]; intros s; [reflexivity|].
  cbn [stop_tracks]. run. now rewrite IH.
Qed.

Lemma close_run s :
  exists t, close s = (Returned tt, released s, t)
            /\ emitted t = [] /\ candidates_added t = [].
Proof.
  destruct s as [pc dc ls omc ocs so la ra ini cs pend].
  unfold close, close_dataChannel, close_localStream, close_peerConnection.
  run. destruct dc, ls as [stream|], pc; run;
    rewrite ?stop_tracks_run; cbn;
    (eexists; split; [reflexivity|]); cbn;
    try (split; reflexivity).
  all: rewrite ?app_nil_r; induction (getTracks stream); cbn; auto.
Qed.

Lemma closed_released s : closed s = released s.
Proof.
  unfold closed. destruct (close_run s) as [t [H _]]. now rewrite H.
Qed.

(** What [close()] calls: [close] on the data channel when there is one,
    [stop] on each track of the local stream when there is one, [close] on
    the peer connection when there is one, in this order. *)
Lemma close_effects s :
  effects_of (close s) =
  ConsoleLog "Closing WebRTC connection"
  :: match dataChannel s with
     | Some _ => [DataChannelClose]
     | None => []
     end
  ++ match localStream s with
     | Some stream => map TrackStop (getTracks stream)
     | None => []
     end
  ++ match peerConnection s with
     | Some _ => [PeerConnectionClose]
     | None => []
     end.
Proof.
  destruct s as [pc dc ls omc ocs so la ra ini cs pend].
  unfold close, close_dataChannel, close_localStream, close_peerConnection.
  run. destruct dc, ls as [stream|], pc; run;
    rewrite ?stop_tracks_run; cbn; rewrite ?app_nil_r; reflexivity.
Qed.

(** C5. [close()] returns on every session. It releases what the session
    holds: it calls [close] on the data channel, [stop] on every track of
    the local stream and [close] on the peer connection, each once when
    the session has it, and leaves state 'closed', no pending candidate
    and the three fields null. A second [close()] right after the first
    returns too, calls nothing but the console, and leaves the session as
    the first left it. *)
Theorem close_twice_is_close_once :
  forall s,
    outcome_of (close s) = Returned tt /\
    outcome_of (close (closed s)) = Returned tt /\
    closed (closed s) = closed s /\
    connectionState (closed s) = "closed" /\
    getConnectionState (closed s) = "closed" /\
    pendingCandidates (closed s) = [] /\
    dataChannel (closed s) = None /\
    localStream (closed s) = None /\
    peerConnection (closed s) = None /\
    effects_of (close s) =
    ConsoleLog "Closing WebRTC connection"
    :: match dataChannel s with
       | Some _ => [DataChannelClose]
       | None => []
       end
    ++ match localStream s with
       | Some stream => map TrackStop (getTracks stream)
       | None => []
       end
    ++ match peerConnection s with
       | Some _ => [PeerConnectionClose]
       | None => []
       end /\
    effects_of (close (closed s)) = [ConsoleLog "Closing WebRTC connection"].
Proof.
  intros s.
  destruct (close_run s) as [t1 [H1 _]].
  destruct (close_run (closed s)) as [t2 [H2 _]].
  assert (Hsecond : effects_of (close (closed s)) =
                    [ConsoleLog "Closing WebRTC connection"])
    by (rewrite close_effects, closed_released; reflexivity).
  assert (Hfirst := close_effects s).
  repeat split; try assumption;
    unfold outcome_of; rewrite ?H1, ?H2, ?closed_released; reflexivity.
Qed.

(** A negotiation method that finds [this.peerConnection] null writes one
    or two lines on the console and returns. *)
Lemma negotiate_without_connection (n : Negotiation) s :
  peerConnection s = None ->
  exists t, negotiate B n s = (Returned tt, s, t)
            /\ forallb is_console t = true.
Proof.
  intros Hnull. destruct n; cbn [negotiate];
    unfold initiateConnection, handleOffer, handleAnswer, handleIceCandidate;
    run; rewrite Hnull; eexists; split; reflexivity.
Qed.

Lemma negotiate_all_without_connection (ns : list Negotiation) s :
  peerConnection s = None ->
  exists t, negotiate_all B ns s = (Returned tt, s, t)
            /\ forallb is_console t = true.
Proof.
  intros Hnull. induction ns as [|n ns [t [IH Ht]]]; cbn [negotiate_all].
  - exists []. split; reflexivity.
  - destruct (negotiate_without_connection n s Hnull) as [t1 [H1 Ht1]].
    unfold bind. rewrite H1, IH. eexists. split; [reflexivity|].
    rewrite forallb_app, Ht1, Ht. reflexivity.
Qed.

(** C9. After [close()], any sequence of calls of [initiateConnection],
    [handleOffer], [handleAnswer] and [handleIceCandidate] returns without
    throwing, leaves the session as [close()] left it, with the peer
    connection null, and does nothing but write on the console: no call
    of the browser and no signaling message. *)
Theorem after_close_negotiation_returns_early :
  forall s (ns : list Negotiation),
    peerConnection (closed s) = None /\
    outcome_of (negotiate_all B ns (closed s)) = Returned tt /\
    state_of (negotiate_all B ns (closed s)) = closed s /\
    forallb is_console (effects_of (negotiate_all B ns (closed s))) = true.
Proof.
  intros s ns.
  assert (Hnull : peerConnection (closed s) = None)
    by now rewrite closed_released.
  destruct (negotiate_all_without_connection ns (closed s) Hnull)
    as [t [H Ht]].
  unfold outcome_of, state_of, effects_of. rewrite H. repeat split; assumption.
Qed.

(** C6. [sendMessage] never changes the session. With a data channel
    whose [readyState] is 'open' it sends the message on it and returns
    [true]; in every other case it returns [false] and does nothing. So
    [true] comes back only from an open channel, and nothing is ever kept
    for later. *)
Theorem sendMessage_true_only_when_open :
  forall s (message : P2PMessage),
    state_of (sendMessage B message s) = s /\
    (channel_open s = true ->
       sendMessage B message s =
       (Returned true, s, [DataChannelSend (JSON_stringify B message)])) /\
    (channel_open s = false ->
       sendMessage B message s = (Returned false, s, [])) /\
    (outcome_of (sendMessage B message s) = Returned true ->
       exists dc, dataChannel s = Some dc /\ readyState dc = "open").
Proof.
  intros s message. unfold sendMessage. run.
  destruct (channel_open s) eqn:Hopen; cbn;
    repeat split; try reflexivity; try discriminate.
  intros _. unfold channel_open in Hopen.
  destruct (dataChannel s) as [dc|]; [|discriminate].
  exists dc. split; [reflexivity|]. now apply String.eqb_eq.
Qed.

(** C7 (as the code has it). The guard of [initiateConnection] reads
    the field [connectionState]. On a session whose field is 'connecting'
    and whose [remoteAddress] is the address asked for, which is a session
    that [getConnectionState()] shows as 'connecting', or as 'connected'
    once its data channel is open, [initiateConnection] returns at once:
    the session is unchanged and the only effects are lines on the
    console, so no data channel is created and no offer is emitted. *)
Theorem initiate_again_is_noop_while_connecting :
  forall s (remote : string),
    remoteAddress s = remote ->
    connectionState s = "connecting" ->
    (getConnectionState s = "connecting" \/
     getConnectionState s = "connected") /\
    (channel_open s = true -> getConnectionState s = "connected") /\
    outcome_of (initiateConnection B remote s) = Returned tt /\
    state_of (initiateConnection B remote s) = s /\
    forallb is_console (effects_of (initiateConnection B remote s)) = true.
Proof.
  intros s remote Hremote Hstate.
  assert (Hshown : (getConnectionState s = "connecting" \/
                    getConnectionState s = "connected") /\
                   (channel_open s = true ->
                    getConnectionState s = "connected")).
  { unfold getConnectionState. destruct (channel_open s); auto.
    split; [now left|discriminate]. }
  destruct Hshown as [Hshown Hopen].
  split; [exact Hshown|]. split; [exact Hopen|].
  unfold initiateConnection. run.
  destruct (peerConnection s) as [pc|]; cbn; [|repeat split].
  rewrite Hremote, String.eqb_refl, Hstate. cbn. repeat split.
Qed.

(** C4. On a session with a peer connection, [handleOffer] in a
    signaling state other than 'stable' and 'have-local-offer', and
    [handleAnswer] in a signaling state other than 'have-local-offer',
    return without throwing, leave every field as it was, and write a
    warning on the console. *)
Theorem incompatible_offer_or_answer_is_discarded :
  forall s (pc : RTCPeerConnection),
    peerConnection s = Some pc ->
    (forall offer senderAddress,
        signalingState pc <> "stable" ->
        signalingState pc <> "have-local-offer" ->
        handleOffer B offer senderAddress s =
        (Returned tt, s,
         [ConsoleLog "Handling offer from:";
          ConsoleWarn "Ignoring offer in state:"])) /\
    (forall answer,
        signalingState pc <> "have-local-offer" ->
        handleAnswer B answer s =
        (Returned tt, s,
         [ConsoleLog "Handling answer, Current state:";
          ConsoleWarn "Ignoring answer in state:"])).
Proof.
  intros s pc Hpc. split.
  - intros offer senderAddress Hs Hl. unfold handleOffer. run. rewrite Hpc.
    apply String.eqb_neq in Hs, Hl. rewrite Hs, Hl. reflexivity.
  - intros answer Hl. unfold handleAnswer. run. rewrite Hpc.
    apply String.eqb_neq in Hl. rewrite Hl. reflexivity.
Qed.

Lemma candidates_added_app t1 t2 :
  candidates_added (t1 ++ t2) = candidates_added t1 ++ candidates_added t2.
Proof.
  induction t1 as [|e t1 IH]; [reflexivity|].
  destruct e; cbn; now rewrite ?IH.
Qed.

(** The loop of [processPendingCandidates] hands every candidate of the
    queue to [addIceCandidate], once and in the order of the queue,
    whether the browser takes it or throws; it writes no other field
    than the connection. *)
Lemma add_all_pending_run (cs : list string) s pc :
  peerConnection s = Some pc ->
  exists pc' t,
    add_all_pending B cs s = (Returned tt, set_peerConnection (Some pc') s, t)
    /\ candidates_added t = cs.
Proof.
  revert s pc. induction cs as [|c cs IH]; intros s pc Hpc.
  - exists pc, []. split; [|reflexivity].
    destruct s; cbn in Hpc; subst; reflexivity.
  - cbn [add_all_pending]. unfold add_pending. run. rewrite Hpc.
    destruct (addIceCandidate B c pc) as [pc1|err]; cbn.
    + destruct (IH (set_peerConnection (Some pc1) s) pc1 eq_refl)
        as [pc' [t [Hrun Ht]]].
      rewrite Hrun. exists pc'. eexists. split; [reflexivity|].
      cbn. now rewrite Ht.
    + destruct (IH s pc Hpc) as [pc' [t [Hrun Ht]]].
      rewrite Hrun. exists pc'. eexists. split; [reflexivity|].
      cbn. now rewrite Ht.
Qed.

(** While the remote description is null every candidate goes to the end
    of the queue. *)
Lemma queue_candidates (cs : list string) s pc :
  peerConnection s = Some pc ->
  remoteDescription pc = None ->
  negotiate_all B (map Candidate cs) s =
  (Returned tt, set_pendingCandidates (pendingCandidates s ++ cs) s,
   map (fun _ =>
          ConsoleLog "Queueing ICE candidate until remote description is set")
       cs).
Proof.
  revert s. induction cs as [|c cs IH]; intros s Hpc Hrd.
  - cbn. rewrite app_nil_r. destruct s; reflexivity.
  - cbn [map negotiate_all negotiate]. unfold bind at 1.
    unfold handleIceCandidate. run. rewrite Hpc, Hrd. cbn.
    rewrite IH by assumption. cbn. rewrite <- app_assoc. reflexivity.
Qed.

(** C2 (as the code has it). On a session that has a peer connection:
    while the remote description is null, [handleIceCandidate] returns
    without throwing, calls nothing on the browser and puts the candidate
    at the end of [pendingCandidates], one call after the other; when
    [handleAnswer] sets the remote description, or [handleOffer] sets it
    and then creates and sets the local answer, the candidates of the
    queue are handed to [addIceCandidate] once each, in the order of the
    queue, all after [setRemoteDescription], and the queue is left empty. *)
Theorem queued_candidates_applied_in_order :
  forall s (pc : RTCPeerConnection),
    peerConnection s = Some pc ->
    (remoteDescription pc = None ->
       (forall c : string,
           handleIceCandidate B c s =
           (Returned tt, set_pendingCandidates (pendingCandidates s ++ [c]) s,
            [ConsoleLog
               "Queueing ICE candidate until remote description is set"])) /\
       (forall cs : list string,
           outcome_of (negotiate_all B (map Candidate cs) s) = Returned tt /\
           state_of (negotiate_all B (map Candidate cs) s) =
           set_pendingCandidates (pendingCandidates s ++ cs) s /\
           forallb is_console
             (effects_of (negotiate_all B (map Candidate cs) s)) = true)) /\
    (forall answer pc1,
        signalingState pc = "have-local-offer" ->
        setRemoteDescription B answer pc = Returned pc1 ->
        outcome_of (handleAnswer B answer s) = Returned tt /\
        candidates_added (before_remote (effects_of (handleAnswer B answer s)))
        = [] /\
        candidates_added (after_remote (effects_of (handleAnswer B answer s)))
        = pendingCandidates s /\
        pendingCandidates (state_of (handleAnswer B answer s)) = []) /\
    (forall offer senderAddress pc1 answer pc2,
        signalingState pc = "stable" \/
        signalingState pc = "have-local-offer" ->
        setRemoteDescription B offer pc = Returned pc1 ->
        createAnswer B pc1 = Returned answer ->
        setLocalDescription B answer pc1 = Returned pc2 ->
        outcome_of (handleOffer B offer senderAddress s) = Returned tt /\
        candidates_added
          (before_remote (effects_of (handleOffer B offer senderAddress s)))
        = [] /\
        candidates_added
          (after_remote (effects_of (handleOffer B offer senderAddress s)))
        = pendingCandidates s /\
        pendingCandidates (state_of (handleOffer B offer senderAddress s))
        = []).
Proof.
  intros s pc Hpc. split; [|split].
  - intros Hrd. split.
    + intros c. unfold handleIceCandidate. run. now rewrite Hpc, Hrd.
    + intros cs. rewrite (queue_candidates cs s pc Hpc Hrd).
      repeat split. cbn. induction cs; cbn; auto.
  - intros answer pc1 Hsig Hset.
    unfold handleAnswer, processPendingCandidates. run.
    rewrite Hpc, Hsig. cbn. rewrite Hpc, Hset. cbn.
    destruct (add_all_pending_run (pendingCandidates s)
                (set_peerConnection (Some pc1) s) pc1 eq_refl)
      as [pc' [t [Hrun Ht]]].
    rewrite Hrun. cbn. rewrite !candidates_added_app, Ht. cbn.
    rewrite ?app_nil_r. repeat split.
  - intros offer senderAddress pc1 answer pc2 Hsig Hset Hcreate Hlocal.
    unfold handleOffer, processPendingCandidates. run.
    rewrite Hpc.
    assert (Hguard : negb (signalingState pc =? "stable")
                     && negb (signalingState pc =? "have-local-offer")
                     = false)
      by (destruct Hsig as [-> | ->]; reflexivity).
    rewrite Hguard. cbn. rewrite Hpc, Hset. cbn. rewrite Hcreate. cbn.
    rewrite Hlocal. cbn.
    match goal with
    | |- context [add_all_pending B ?cs ?s0] =>
        destruct (add_all_pending_run cs s0 pc2 eq_refl)
          as [pc' [t [Hrun Ht]]]
    end.
    rewrite Hrun. cbn.
    destruct (socket s); cbn; [|destruct (onConnectionStateCallback s); cbn];
      rewrite !candidates_added_app, Ht; cbn; rewrite ?app_nil_r;
      repeat split.
Qed.

(** Attaching the tracks writes no field but the connection and emits
    nothing. *)
Lemma add_tracks_run (ts : list string) s :
  exists r pc' t,
    add_tracks B ts s = (r, set_peerConnection pc' s, t) /\ emitted t = [].
Proof.
  revert s. induction ts as [|x ts IH]; intros s.
  - exists (Returned tt), (peerConnection s), []. split; [|reflexivity].
    destruct s; reflexivity.
  - cbn [add_tracks]. run.
    destruct (peerConnection s) as [pc|] eqn:Hpc.
    + destruct (addTrack B x pc) as [pc1|err].
      * destruct (IH (set_peerConnection (Some pc1) s)) as [r [pc' [t [H Ht]]]].
        rewrite H. exists r, pc'. eexists. split.
        -- destruct r; reflexivity.
        -- exact Ht.
      * exists (Threw err), (Some pc). eexists.
        split; [destruct s; cbn in Hpc; subst; reflexivity | reflexivity].
    + exists (Threw "TypeError"), None, []. split; [|reflexivity].
      destruct s; cbn in Hpc; subst; reflexivity.
Qed.

Lemma emitted_app t1 t2 : emitted (t1 ++ t2) = emitted t1 ++ emitted t2.
Proof.
  induction t1 as [|e t1 IH]; [reflexivity|].
  destruct e; cbn; now rewrite ?IH.
Qed.

(** C8 (as the code has it). When [getUserMedia] throws, [startCall]
    writes the error on the console and throws it on to the caller; it
    emits nothing and leaves every field of the session as it was. When
    [startCall] returns, it has emitted one message, a 'webrtc-call-offer'
    for the remote address, and [connectionState] and the data channel are
    as before. *)
Theorem startCall_rethrows_or_emits_call_offer :
  forall s (video : bool),
    (forall err,
        getUserMedia B video = Threw err ->
        startCall B video s =
        (Threw err, s,
         [GetUserMedia video; ConsoleError "Failed to start call:"])) /\
    (outcome_of (startCall B video s) = Returned tt ->
     (exists offer,
         emitted (effects_of (startCall B video s)) =
         [WebrtcCallOffer offer (remoteAddress s) (localAddress s) video]) /\
     connectionState (state_of (startCall B video s)) = connectionState s /\
     getConnectionState (state_of (startCall B video s)) =
     getConnectionState s).
Proof.
  intros s video. split.
  - intros err Herr. unfold startCall. run. now rewrite Herr.
  - unfold startCall. run.
    destruct (getUserMedia B video) as [stream|err]; cbn; [|discriminate].
    destruct (add_tracks_run (getTracks stream)
                (set_localStream (Some stream) s))
      as [r [pc' [t [Hrun Ht]]]].
    rewrite Hrun. cbn.
    destruct r as [[]|err]; cbn; [|discriminate].
    destruct pc' as [pc1|]; cbn; [|discriminate].
    destruct (createOffer B pc1) as [offer|err]; cbn; [|discriminate].
    destruct (setLocalDescription B offer pc1) as [pc2|err]; cbn;
      [|discriminate].
    destruct (socket s); cbn; [|discriminate].
    intros _. rewrite emitted_app, Ht. cbn. repeat split. now exists offer.
Qed.


(** *** What every call keeps

    A property of the session that no write of the class can break: the
    writes of the connection, the channel, the stream, the callbacks, the
    addresses, the role and the queue, and the four values the class gives
    to [connectionState]. *)
Section Invariant.

Variable P : WebRTCManager -> Prop.

Hypothesis P_peerConnection : forall v s, P s -> P (set_peerConnection v s).
Hypothesis P_dataChannel : forall v s, P s -> P (set_dataChannel v s).
Hypothesis P_localStream : forall v s, P s -> P (set_localStream v s).
Hypothesis P_onMessage : forall v s, P s -> P (set_onMessageCallback v s).
Hypothesis P_onConnectionState :
  forall v s, P s -> P (set_onConnectionStateCallback v s).
Hypothesis P_remoteAddress : forall v s, P s -> P (set_remoteAddress v s).
Hypothesis P_isInitiator : forall v s, P s -> P (set_isInitiator v s).
Hypothesis P_pendingCandidates :
  forall v s, P s -> P (set_pendingCandidates v s).
Hypothesis P_connectionState :
  forall v s,
    In v ["new"; "connecting"; "failed"; "closed"] ->
    P s -> P (set_connectionState v s).

Lemma preserves_ret {A} (a : A) : preserves P (ret a).
Proof. intros s Hs. exact Hs. Qed.

Lemma preserves_throw {A} e : preserves P (@throw A e).
Proof. intros s Hs. exact Hs. Qed.

Lemma preserves_get : preserves P get.
Proof. intros s Hs. exact Hs. Qed.

Lemma preserves_effect e : preserves P (effect e).
Proof. intros s Hs. exact Hs. Qed.

Lemma preserves_modify f : (forall s, P s -> P (f s)) -> preserves P (modify f).
Proof. intros Hf s Hs. now apply Hf. Qed.

Lemma preserves_bind {A C} (m : M A) (k : A -> M C) :
  preserves P m -> (forall a, preserves P (k a)) -> preserves P (bind m k).
Proof.
  intros Hm Hk s Hs. specialize (Hm s Hs). unfold bind, state_of in *.
  destruct (m s) as [[[a|e] s1] t1]; cbn in *; [|exact Hm].
  specialize (Hk a s1 Hm). unfold state_of in Hk.
  destruct (k a s1) as [[r s2] t2]. exact Hk.
Qed.

Lemma preserves_try_catch {A} (m : M A) (h : string -> M A) :
  preserves P m -> (forall e, preserves P (h e)) ->
  preserves P (try_catch m h).
Proof.
  intros Hm Hh s Hs. specialize (Hm s Hs). unfold try_catch, state_of in *.
  destruct (m s) as [[[a|e] s1] t1]; cbn in *; [exact Hm|].
  specialize (Hh e s1 Hm). unfold state_of in Hh.
  destruct (h e s1) as [[r s2] t2]. exact Hh.
Qed.

Lemma preserves_pc_update e op : preserves P (pc_update e op).
Proof.
  intros s Hs. unfold pc_update, state_of.
  destruct (peerConnection s) as [pc|]; [|exact Hs].
  destruct (op pc); cbn; auto.
Qed.

Lemma preserves_pc_create e op : preserves P (pc_create e op).
Proof.
  intros s Hs. unfold pc_create, state_of.
  destruct (peerConnection s) as [pc|]; [|exact Hs].
  destruct (op pc); exact Hs.
Qed.

Lemma preserves_socket_emit m : preserves P (socket_emit m).
Proof.
  intros s Hs. unfold socket_emit, state_of. destruct (socket s); exact Hs.
Qed.

Lemma preserves_notify_state st : preserves P (notify_state st).
Proof.
  intros s Hs. unfold notify_state, state_of.
  destruct (onConnectionStateCallback s); exact Hs.
Qed.

Lemma preserves_pc_createDataChannel name :
  preserves P (pc_createDataChannel B name).
Proof.
  intros s Hs. unfold pc_createDataChannel, state_of.
  destruct (peerConnection s) as [pc|]; [|exact Hs].
  destruct (createDataChannel B name pc) as [[dc pc']|]; cbn; auto.
Qed.

Lemma preserves_acquire_media video : preserves P (acquire_media B video).
Proof.
  intros s Hs. unfold acquire_media, state_of.
  destruct (getUserMedia B video); cbn; auto.
Qed.

(** One step through the body of a method. *)
Ltac keep :=
  lazymatch goal with
  | |- preserves _ (bind _ _) => apply preserves_bind; [|intros ?]
  | |- preserves _ (try_catch _ _) => apply preserves_try_catch; [|intros ?]
  | |- preserves _ (ret _) => apply preserves_ret
  | |- preserves _ (throw _) => apply preserves_throw
  | |- preserves _ get => apply preserves_get
  | |- preserves _ (effect _) => apply preserves_effect
  | |- preserves _ (pc_update _ _) => apply preserves_pc_update
  | |- preserves _ (pc_create _ _) => apply preserves_pc_create
  | |- preserves _ (socket_emit _) => apply preserves_socket_emit
  | |- preserves _ (notify_state _) => apply preserves_notify_state
  | |- preserves _ (pc_createDataChannel _ _) =>
      apply preserves_pc_createDataChannel
  | |- preserves _ (acquire_media _ _) => apply preserves_acquire_media
  | |- preserves _ (modify (set_connectionState _)) =>
      apply preserves_modify; intros ? ?;
      apply P_connectionState; [cbn; tauto | assumption]
  | |- preserves _ (modify _) =>
      apply preserves_modify; intros ? ?; solve [auto]
  | |- preserves _ (match ?x with _ => _ end) => destruct x
  end.

Lemma preserves_add_all_pending cs : preserves P (add_all_pending B cs).
Proof.
  induction cs as [|c cs IH]; cbn [add_all_pending]; [apply preserves_ret|].
  unfold add_pending. repeat keep. exact IH.
Qed.

Lemma preserves_add_tracks ts : preserves P (add_tracks B ts).
Proof.
  induction ts as [|x ts IH]; cbn [add_tracks]; [apply preserves_ret|].
  repeat keep. exact IH.
Qed.

Lemma preserves_stop_tracks ts : preserves P (stop_tracks ts).
Proof.
  induction ts as [|x ts IH]; cbn [stop_tracks]; [apply preserves_ret|].
  repeat keep. exact IH.
Qed.

Lemma preserves_close : preserves P close.
Proof.
  unfold close, close_dataChannel, close_localStream, close_peerConnection.
  repeat keep; apply preserves_stop_tracks.
Qed.

Lemma preserves_call (c : Call) : preserves P (call B c).
Proof.
  destruct c as [[r|o a|a|c]| | | | | |]; cbn [call negotiate];
    unfold initiateConnection, handleOffer, handleAnswer, handleIceCandidate,
      sendMessage, startCall, onMessage, onConnectionState, reset,
      processPendingCandidates, setupPeerConnection, setupDataChannel;
    repeat keep;
    first [ apply preserves_add_all_pending
          | apply preserves_add_tracks
          | apply preserves_close ].
Qed.

End Invariant.

(** The class never writes 'connected' in [connectionState]: the field is
    'new', 'connecting', 'failed' or 'closed' on every session a program
    can hold. *)
Lemma reachable_connectionState s :
  reachable B s ->
  In (connectionState s) ["new"; "connecting"; "failed"; "closed"].
Proof.
  induction 1 as [sock addr | s c Hs IH | s s' Hs IH Hev | s s' Hs IH Hw].
  - cbn. tauto.
  - revert IH.
    apply (preserves_call
             (fun s => In (connectionState s)
                         ["new"; "connecting"; "failed"; "closed"]));
      auto.
  - destruct Hev; exact IH.
  - destruct Hw; try exact IH. cbn. tauto.
Qed.


End Session.

(* ===================================================================== *)
(** ** The theorems on concrete sessions                                  *)
(* ===================================================================== *)

Section Runs.

Import WebRTC.

(** The two sides of a negotiation in [plain_browser]: "0xA" offers, "0xB"
    answers, "0xA" takes the answer. *)
Example negotiation_runs :
  emitted (effects_of (initiateConnection plain_browser "0xB" fresh)) =
  [WebrtcOffer {| sd_type := "offer"; sdp := "v=0 o" |} "0xB" "0xA"] /\
  emitted
    (effects_of
       (handleOffer plain_browser remote_offer "0xA"
          (constructor plain_browser (Some 2) "0xB"))) =
  [WebrtcAnswer {| sd_type := "answer"; sdp := "v=0 a" |} "0xA" "0xB"] /\
  connectionState (state_of (handleAnswer plain_browser remote_answer offering))
  = "connecting" /\
  getConnectionState linked = "connected".
Proof. repeat split. Qed.

Lemma queued_candidates_applied_in_order_witness :
  let queued :=
    state_of
      (negotiate_all plain_browser (map Candidate ["c1"; "c2"; "c3"])
         offering) in
  pendingCandidates queued = ["c1"; "c2"; "c3"] /\
  outcome_of (handleAnswer plain_browser remote_answer queued) = Returned tt /\
  candidates_added
    (before_remote (effects_of (handleAnswer plain_browser remote_answer queued)))
  = [] /\
  candidates_added
    (after_remote (effects_of (handleAnswer plain_browser remote_answer queued)))
  = ["c1"; "c2"; "c3"] /\
  pendingCandidates (state_of (handleAnswer plain_browser remote_answer queued))
  = [].
Proof.
  intros queued.
  destruct (queued_candidates_applied_in_order plain_browser offering
              (with_signaling "have-local-offer" None
                 (Some {| sd_type := "offer"; sdp := "v=0 o" |}))
              eq_refl)
    as [Hqueue _].
  destruct (Hqueue eq_refl) as [_ Hall].
  destruct (Hall ["c1"; "c2"; "c3"]) as [_ [Hstate _]].
  split; [unfold queued; rewrite Hstate; reflexivity|].
  destruct (queued_candidates_applied_in_order plain_browser queued
              (with_signaling "have-local-offer" None
                 (Some {| sd_type := "offer"; sdp := "v=0 o" |}))
              eq_refl)
    as [_ [Hanswer _]].
  exact (Hanswer remote_answer
           (with_signaling "stable" (Some remote_answer)
              (Some {| sd_type := "offer"; sdp := "v=0 o" |}))
           eq_refl eq_refl).
Defined.

(** C2 as the specification words it fails on a closed session: no remote
    description was ever applied, and [handleIceCandidate] returns without
    queueing the candidate and without applying it. *)
Lemma closed_session_drops_candidate :
  let s := closed fresh in
  peerConnection s = None /\
  handleIceCandidate plain_browser "c1" s =
  (Returned tt, s,
   [ConsoleError "No peer connection available for ICE candidate"]) /\
  pendingCandidates (state_of (handleIceCandidate plain_browser "c1" s)) = [].
Proof. repeat split. Qed.

(** The queue also outlives a remote description when [createAnswer]
    throws in [handleOffer]: the offer is set, no candidate is applied, the
    queue stays and the session is 'failed'. *)
Example failed_answer_keeps_queue :
  let queued :=
    state_of
      (negotiate_all no_answer_browser (map Candidate ["c1"; "c2"])
         (constructor no_answer_browser (Some 2) "0xB")) in
  let r := handleOffer no_answer_browser remote_offer "0xA" queued in
  outcome_of r = Returned tt /\
  option_map remoteDescription (peerConnection (state_of r)) =
  Some (Some remote_offer) /\
  candidates_added (effects_of r) = [] /\
  pendingCandidates (state_of r) = ["c1"; "c2"] /\
  connectionState (state_of r) = "failed".
Proof. repeat split. Qed.

Lemma incompatible_offer_or_answer_is_discarded_witness :
  handleOffer plain_browser remote_offer "0xB" answering =
  (Returned tt, answering,
   [ConsoleLog "Handling offer from:"; ConsoleWarn "Ignoring offer in state:"])
  /\
  handleAnswer plain_browser remote_answer answering =
  (Returned tt, answering,
   [ConsoleLog "Handling answer, Current state:";
    ConsoleWarn "Ignoring answer in state:"]).
Proof.
  destruct (incompatible_offer_or_answer_is_discarded plain_browser answering
              (with_signaling "have-remote-offer" (Some remote_offer) None)
              eq_refl)
    as [Hoffer Hanswer].
  split.
  - apply Hoffer; discriminate.
  - apply Hanswer; discriminate.
Defined.

Lemma initiate_again_is_noop_while_connecting_witness :
  (getConnectionState offering = "connecting" /\
   state_of (initiateConnection plain_browser "0xB" offering) = offering /\
   forallb is_console
     (effects_of (initiateConnection plain_browser "0xB" offering)) = true)
  /\
  (getConnectionState linked = "connected" /\
   outcome_of (initiateConnection plain_browser "0xB" linked) = Returned tt /\
   state_of (initiateConnection plain_browser "0xB" linked) = linked /\
   forallb is_console
     (effects_of (initiateConnection plain_browser "0xB" linked)) = true).
Proof.
  destruct (initiate_again_is_noop_while_connecting plain_browser offering
              "0xB" eq_refl eq_refl) as [_ [_ [_ [Hs He]]]].
  destruct (initiate_again_is_noop_while_connecting plain_browser linked
              "0xB" eq_refl eq_refl) as [_ [Hopen [Ho' [Hs' He']]]].
  split.
  - split; [reflexivity|]. split; assumption.
  - split; [exact (Hopen eq_refl)|]. repeat split; assumption.
Defined.

(** C7 as the specification words it fails. "0xA" is connected to "0xB":
    the offer went out, the answer came, the data channel is open. A new
    offer of "0xB" then fails in the browser, which leaves the field
    [connectionState] 'failed' while the channel stays open. This session
    can be reached by calls and events alone, shows 'connected' toward
    "0xB", and [initiateConnection] for "0xB" does not return early: it
    replaces the open channel by a new one, emits a new offer and changes
    the session. *)
Lemma connected_session_negotiates_again :
  reachable no_answer_browser Reading.renegotiation_failed /\
  getConnectionState Reading.renegotiation_failed = "connected" /\
  remoteAddress Reading.renegotiation_failed = "0xB" /\
  connectionState Reading.renegotiation_failed = "failed" /\
  emitted
    (effects_of
       (initiateConnection no_answer_browser "0xB"
          Reading.renegotiation_failed)) =
  [WebrtcOffer {| sd_type := "offer"; sdp := "v=0 o" |} "0xB" "0xA"] /\
  In (CreateDataChannel "messages")
     (effects_of
        (initiateConnection no_answer_browser "0xB"
           Reading.renegotiation_failed)) /\
  dataChannel
    (state_of
       (initiateConnection no_answer_browser "0xB"
          Reading.renegotiation_failed)) =
  Some {| label := "messages"; readyState := "connecting" |} /\
  state_of
    (initiateConnection no_answer_browser "0xB" Reading.renegotiation_failed)
  <> Reading.renegotiation_failed.
Proof.
  split.
  - unfold Reading.renegotiation_failed.
    apply reach_call.
    eapply reach_event.
    + apply reach_call. apply reach_call. apply reach_new.
    + apply (channel_moves _
               {| label := "messages"; readyState := "connecting" |}).
      vm_compute. reflexivity.
  - vm_compute. repeat split; auto 10. discriminate.
Qed.

(** C8 as the specification words it fails: the user denies the
    microphone, [startCall] throws, and the session is as it was, not
    closed: its state is still 'new' and it still has its peer
    connection. *)
Lemma failed_startCall_leaves_session_open :
  let s := constructor no_media_browser (Some 1) "0xA" in
  let r := startCall no_media_browser false s in
  outcome_of r = Threw "NotAllowedError" /\
  emitted (effects_of r) = [] /\
  state_of r = s /\
  connectionState (state_of r) = "new" /\
  peerConnection (state_of r) = Some (newRTCPeerConnection no_media_browser) /\
  state_of r <> closed s.
Proof. repeat split. discriminate. Qed.

Example startCall_emits_call_offer :
  outcome_of (startCall plain_browser true offering) = Returned tt /\
  emitted (effects_of (startCall plain_browser true offering)) =
  [WebrtcCallOffer {| sd_type := "offer"; sdp := "v=0 o" |} "0xB" "0xA" true].
Proof. split; reflexivity. Qed.



End Runs.

(* ===================================================================== *)
(** ** The directory: resolving, re-joining, leaving                      *)
(* ===================================================================== *)

Section Resolving.

Import Relay.

Implicit Types (m : JsMap string) (st : State).

Lemma map_get_In {V} (k : string) (v : V) (m : JsMap V) :
  map_get k m = Some v -> In (k, v) m.
Proof.
  induction m as [|[k' v'] m IH]; cbn; [discriminate|].
  destruct (String.eqb_spec k' k) as [->|Hne].
  - intros [= ->]. now left.
  - intros H. right. now apply IH.
Qed.

Lemma In_map_get {V} (k : string) (v : V) (m : JsMap V) :
  map_wf m -> In (k, v) m -> map_get k m = Some v.
Proof.
  unfold map_wf, map_keys.
  induction m as [|[k' v'] m IH]; cbn; intros Hwf Hin; [contradiction|].
  inversion Hwf as [|? ? Hnotin Hwf']; subst.
  destruct Hin as [[= -> ->]|Hin].
  - now rewrite String.eqb_refl.
  - destruct (String.eqb_spec k' k) as [->|Hne]; [|now apply IH].
    exfalso. apply Hnotin. change k with (fst (k, v)). now apply in_map.
Qed.

Lemma filter_all {A} (f : A -> bool) (l : list A) :
  (forall x, In x l -> f x = true) -> filter f l = l.
Proof.
  intros Hf. apply forallb_filter_id. now apply forallb_forall.
Qed.

(** [set] on a socket changes the entries of another identity only by
    dropping the one it overwrites. *)
Lemma entries_of_set_other sid userId other m :
  map_wf m ->
  other <> userId ->
  entries_of other (map_set sid userId m) =
  filter (fun e => negb (fst e =? sid)) (entries_of other m).
Proof.
  intros Hwf Hne. apply String.eqb_neq in Hne. rewrite String.eqb_sym in Hne.
  unfold map_wf, map_keys, entries_of in *.
  induction m as [|[k v] m IH]; cbn.
  - now rewrite Hne.
  - inversion Hwf as [|? ? Hnotin Hwf']; subst.
    destruct (String.eqb_spec k sid) as [->|Hk]; cbn.
    + rewrite Hne.
      assert (Hrest : filter (fun e => negb (fst e =? sid))
                        (filter (fun e => snd e =? other) m)
                      = filter (fun e => snd e =? other) m).
      { apply filter_all. intros [k2 v2] Hin. cbn.
        apply filter_In in Hin as [Hin _].
        destruct (String.eqb_spec k2 sid) as [->|]; [|reflexivity].
        exfalso. apply Hnotin. change sid with (fst (sid, v2)).
        now apply in_map. }
      destruct (String.eqb v other); cbn;
        rewrite ?String.eqb_refl; cbn; now rewrite Hrest.
    + destruct (String.eqb v other); cbn.
      * apply String.eqb_neq in Hk. rewrite Hk. cbn. f_equal. now apply IH.
      * now apply IH.
Qed.

(** The entries of another identity after a [join]. *)
Lemma join_entries_other sid userId other st :
  map_wf (connectedUsers st) ->
  other <> userId ->
  entries_of other (connectedUsers (fst (join sid userId st))) =
  filter (fun e => negb (fst e =? sid))
    (entries_of other (connectedUsers st)).
Proof.
  intros Hwf Hne. rewrite join_connectedUsers. unfold join_evicted.
  rewrite entries_of_set_other by (auto using map_wf_evict).
  f_equal. rewrite evict_filter by assumption.
  unfold entries_of. rewrite filter_swap. apply filter_all.
  intros e He. apply filter_In in He as [_ Hv]. apply String.eqb_eq in Hv.
  unfold stale. rewrite Hv.
  rewrite (proj2 (String.eqb_neq other userId) Hne). reflexivity.
Qed.

(** The directory the relay has reached from its start: socket ids
    distinct, an entry at most for each identity. *)
Lemma run_directory (evs : list Event) :
  map_wf (connectedUsers (run evs initial)) /\
  forall u, length (entries_of u (connectedUsers (run evs initial))) <= 1.
Proof.
  assert (Hrun : forall st,
             map_wf (connectedUsers st) ->
             (forall u, length (entries_of u (connectedUsers st)) <= 1) ->
             map_wf (connectedUsers (run evs st)) /\
             (forall u,
                 length (entries_of u (connectedUsers (run evs st))) <= 1)).
  { induction evs as [|ev evs IH]; intros st Hwf Hone; cbn [run].
    - now split.
    - destruct (handle_invariant ev st Hwf Hone) as [Hwf' Hone'].
      now apply IH. }
  apply Hrun; [constructor|]. intros u. cbn. lia.
Qed.

(** What a forwarding handler does for a target that resolves. *)
Lemma forward_present st (sid t : string) (f : Forwarded) :
  find_socket (target_of f) (connectedUsers st) = Some t ->
  t <> "" ->
  fst (forward sid f st) = st /\
  exists ev p,
    filter is_emit (snd (forward sid f st)) = [IoTo t ev p] /\
    (forall md, f = FwdMessage md ->
                ev = "receiveMessage" /\ p = PMessage md).
Proof.
  intros Hfind Ht. split; [apply forward_state|].
  apply String.eqb_neq in Ht.
  destruct f; cbn in *;
    unfold on_webrtc_offer, on_webrtc_answer, on_sendMessage,
      on_webrtc_ice_candidate, on_webrtc_call_offer;
    rewrite Hfind; cbn; rewrite Ht; cbn;
    do 2 eexists; (split; [reflexivity|]); intros md Hmd;
    try discriminate.
  injection Hmd as <-. split; reflexivity.
Qed.

(** X4. A message whose target resolves to a socket with a non-empty id
    is delivered exactly once, to that socket and to no other client, and
    the relay keeps its state; a chat message arrives as the object the
    sender gave. *)
Theorem forward_delivers_once_to_resolved_socket :
  forall st (sid t : string) (f : Forwarded),
    find_socket (target_of f) (connectedUsers st) = Some t ->
    t <> "" ->
    fst (forward sid f st) = st /\
    exists ev p,
      filter is_emit (snd (forward sid f st)) = [IoTo t ev p] /\
      (forall md, f = FwdMessage md ->
                  ev = "receiveMessage" /\ p = PMessage md).
Proof. exact forward_present. Qed.

Lemma forward_delivers_once_to_resolved_socket_witness :
  let st := fst (join "sockB" "0xB" initial) in
  let md := {| md_sender := "0xA"; md_receiver := "0xB";
               md_content := "hello" |} in
  fst (forward "sockA" (FwdMessage md) st) = st /\
  exists ev p,
    filter is_emit (snd (forward "sockA" (FwdMessage md) st))
    = [IoTo "sockB" ev p] /\
    (forall md', FwdMessage md = FwdMessage md' ->
                 ev = "receiveMessage" /\ p = PMessage md').
Proof.
  apply forward_delivers_once_to_resolved_socket.
  - reflexivity.
  - discriminate.
Defined.

(** X5. After a client joined as [userId] on a socket with a non-empty
    id, whatever the directory held before, every message for [userId]
    goes to that socket and to it alone. *)
Theorem forward_after_join_reaches_joining_socket :
  forall st (sid from : string) (f : Forwarded),
    map_wf (connectedUsers st) ->
    sid <> "" ->
    exists ev p,
      filter is_emit
        (snd (forward from f (fst (join sid (target_of f) st))))
      = [IoTo sid ev p].
Proof.
  intros st sid from f Hwf Hsid.
  destruct (forward_present (fst (join sid (target_of f) st)) from sid f)
    as [_ [ev [p [Hemit _]]]].
  - rewrite find_socket_entries, join_entries by assumption. reflexivity.
  - assumption.
  - now exists ev, p.
Qed.

Lemma forward_after_join_reaches_joining_socket_witness :
  exists ev p,
    filter is_emit
      (snd (forward "sockA" (FwdOffer "sdp" "0xB" "0xA")
              (fst (join "sock2" "0xB" (fst (join "sock1" "0xB" initial))))))
    = [IoTo "sock2" ev p].
Proof.
  apply (forward_after_join_reaches_joining_socket
           (fst (join "sock1" "0xB" initial)) "sock2" "sockA"
           (FwdOffer "sdp" "0xB" "0xA")).
  - apply map_wf_join. constructor.
  - discriminate.
Defined.



(** X7. A socket holds one identity: when the client of a socket joins as
    [u1] and then as [u2], [u1] is no longer resolved and [u2] resolves to
    the socket. *)
Theorem rejoin_as_other_identity_replaces_first :
  forall st (sid u1 u2 : string),
    map_wf (connectedUsers st) ->
    u1 <> u2 ->
    let st2 := fst (join sid u2 (fst (join sid u1 st))) in
    find_socket u1 (connectedUsers st2) = None /\
    find_socket u2 (connectedUsers st2) = Some sid /\
    map_get sid (connectedUsers st2) = Some u2.
Proof.
  intros st sid u1 u2 Hwf Hne st2.
  assert (Hwf1 : map_wf (connectedUsers (fst (join sid u1 st))))
    by now apply map_wf_join.
  assert (H2 : entries_of u2 (connectedUsers st2) = [(sid, u2)])
    by now apply join_entries.
  repeat split.
  - apply find_socket_absent. unfold st2.
    rewrite join_entries_other, join_entries by assumption.
    cbn. now rewrite String.eqb_refl.
  - now rewrite find_socket_entries, H2.
  - apply In_map_get; [now apply map_wf_join|].
    assert (Hin : In (sid, u2) (entries_of u2 (connectedUsers st2)))
      by (rewrite H2; now left).
    now apply filter_In in Hin as [Hin _].
Qed.

Lemma rejoin_as_other_identity_replaces_first_witness :
  let st2 := fst (join "sock1" "0xB" (fst (join "sock1" "0xA" initial))) in
  find_socket "0xA" (connectedUsers st2) = None /\
  find_socket "0xB" (connectedUsers st2) = Some "sock1" /\
  map_get "sock1" (connectedUsers st2) = Some "0xB".
Proof.
  apply (rejoin_as_other_identity_replaces_first initial "sock1" "0xA" "0xB").
  - constructor.
  - discriminate.
Defined.

(** X8. A [join] does not move the other identities: an identity other
    than the joining one, whose socket is not the joining socket, resolves
    after the [join] as before. *)
Theorem join_keeps_other_identities :
  forall st (sid userId other : string),
    map_wf (connectedUsers st) ->
    other <> userId ->
    map_get sid (connectedUsers st) <> Some other ->
    find_socket other (connectedUsers (fst (join sid userId st))) =
    find_socket other (connectedUsers st).
Proof.
  intros st sid userId other Hwf Hne Hsock.
  rewrite !find_socket_entries, join_entries_other by assumption.
  do 2 f_equal. apply filter_all. intros [k v] Hin. cbn.
  apply filter_In in Hin as [Hin Hv]. cbn in Hv. apply String.eqb_eq in Hv.
  subst v. destruct (String.eqb_spec k sid) as [->|]; [|reflexivity].
  exfalso. apply Hsock. now apply In_map_get.
Qed.

Lemma join_keeps_other_identities_witness :
  find_socket "0xB"
    (connectedUsers (fst (join "sockA" "0xA" (fst (join "sockB" "0xB" initial)))))
  = find_socket "0xB" (connectedUsers (fst (join "sockB" "0xB" initial))).
Proof.
  apply join_keeps_other_identities.
  - apply map_wf_join. constructor.
  - discriminate.
  - discriminate.
Defined.

(** X9. In every state the relay can reach from its start, the identity
    of a socket that disconnects is resolved to no socket afterwards. *)
Theorem disconnected_identity_is_offline :
  forall (evs : list Event) (sid userId : string),
    map_get sid (connectedUsers (run evs initial)) = Some userId ->
    find_socket userId
      (connectedUsers (fst (disconnect sid (run evs initial)))) = None.
Proof.
  intros evs sid userId Hget.
  destruct (run_directory evs) as [Hwf Hall].
  pose proof (Hall userId) as Hone.
  apply find_socket_absent. cbn.
  rewrite map_delete_filter by assumption.
  unfold entries_of. rewrite filter_swap.
  fold (entries_of userId (connectedUsers (run evs initial))).
  assert (Hin : In (sid, userId)
                  (entries_of userId (connectedUsers (run evs initial)))).
  { apply filter_In. split; [now apply map_get_In|].
    cbn. apply String.eqb_refl. }
  destruct (entries_of userId (connectedUsers (run evs initial)))
    as [|e [|e' l]]; cbn in *; try contradiction; try lia.
  destruct Hin as [->|[]]. cbn. now rewrite String.eqb_refl.
Qed.

Lemma disconnected_identity_is_offline_witness :
  find_socket "0xA"
    (connectedUsers
       (fst (disconnect "sock1"
               (run [Join "sock1" "0xA"; Join "sock2" "0xB"] initial))))
  = None.
Proof.
  apply (disconnected_identity_is_offline
           [Join "sock1" "0xA"; Join "sock2" "0xB"] "sock1" "0xA").
  reflexivity.
Defined.

End Resolving.

(* ===================================================================== *)
(** ** Calls and contact lists                                            *)
(* ===================================================================== *)

Section CallsAndContacts.

Import Relay Calls.

(** X10. When the receiver of a call is online on a socket with a
    non-empty id, [startCall] sends that socket one 'incomingCall' whose
    [id] is the caller's socket; the callee, who answers with that [id],
    makes the relay send 'callAccepted' with the type of the call, or
    'callRejected', to the caller's socket and to nobody else. *)
Theorem call_answer_returns_to_caller :
  forall st (c r : string) (cd : CallData),
    find_socket (receiver cd) (connectedUsers st) = Some r ->
    r <> "" ->
    exists p,
      emits (on_startCall c cd st) = [IoTo r "incomingCall" p] /\
      emits (on_client_emit r (acceptCall (on_incomingCall p))) =
      [IoTo c "callAccepted" (PCallAccepted (call_type cd))] /\
      emits (on_client_emit r (rejectCall (on_incomingCall p))) =
      [IoTo c "callRejected" PNothing].
Proof.
  intros st c r cd Hfind Hr. apply String.eqb_neq in Hr.
  unfold on_startCall. rewrite Hfind. cbn. rewrite Hr. cbn.
  eexists. repeat split.
Qed.

Lemma call_answer_returns_to_caller_witness :
  let st := fst (join "sockB" "0xB" (fst (join "sockA" "0xA" initial))) in
  let cd := {| caller := "0xA"; receiver := "0xB"; call_type := "audio" |} in
  exists p,
    emits (on_startCall "sockA" cd st) = [IoTo "sockB" "incomingCall" p] /\
    emits (on_client_emit "sockB" (acceptCall (on_incomingCall p))) =
    [IoTo "sockA" "callAccepted" (PCallAccepted "audio")] /\
    emits (on_client_emit "sockB" (rejectCall (on_incomingCall p))) =
    [IoTo "sockA" "callRejected" PNothing].
Proof.
  apply (call_answer_returns_to_caller
           (fst (join "sockB" "0xB" (fst (join "sockA" "0xA" initial))))
           "sockA" "sockB"
           {| caller := "0xA"; receiver := "0xB"; call_type := "audio" |}).
  - reflexivity.
  - discriminate.
Defined.

(** X11. [startCall], [callHold], [offer], [answer] and 'ice-candidate'
    for an identity that has no entry in the directory send nothing to
    any client: the sender is not told. *)
Theorem call_signals_to_absent_target_are_dropped :
  forall st (sid target : string),
    entries_of target (connectedUsers st) = [] ->
    (forall cd, receiver cd = target -> emits (on_startCall sid cd st) = []) /\
    (forall hold, emits (on_callHold sid target hold st) = []) /\
    (forall offer, emits (on_offer sid offer target st) = []) /\
    (forall answer, emits (on_answer sid answer target st) = []) /\
    (forall candidate,
        emits (on_ice_candidate sid candidate target st) = []).
Proof.
  intros st sid target Habs. apply find_socket_absent in Habs.
  repeat split; intros;
    unfold on_startCall, on_callHold, on_offer, on_answer, on_ice_candidate;
    subst; rewrite Habs; reflexivity.
Qed.

Lemma call_signals_to_absent_target_are_dropped_witness :
  emits (on_offer "sockA" "sdp" "0xB" (fst (join "sockA" "0xA" initial))) = [].
Proof.
  apply (call_signals_to_absent_target_are_dropped
           (fst (join "sockA" "0xA" initial)) "sockA" "0xB").
  reflexivity.
Defined.

(** *** [updateUserContacts] *)

Lemma findIndex_nth a (cs : list ContactEntry) i :
  findIndex a cs = Some i ->
  exists c, nth_error cs i = Some c /\ address c = a /\
            contact_of a cs = Some c.
Proof.
  revert i. induction cs as [|c cs IH]; cbn; intros i; [discriminate|].
  unfold contact_of. cbn.
  destruct (String.eqb_spec (address c) a) as [Ha|Ha].
  - intros [= <-]. exists c. repeat split; assumption.
  - destruct (findIndex a cs) as [j|] eqn:Hj; cbn; [|discriminate].
    intros [= <-]. destruct (IH j eq_refl) as [c' [Hn [Hc Hf]]].
    exists c'. repeat split; assumption.
Qed.

Lemma findIndex_none a (cs : list ContactEntry) :
  findIndex a cs = None -> contact_of a cs = None.
Proof.
  unfold contact_of. induction cs as [|c cs IH]; cbn; [reflexivity|].
  destruct (String.eqb (address c) a); [discriminate|].
  destruct (findIndex a cs); [discriminate|]. auto.
Qed.

(** Writing at the index [findIndex] gave: the entry of [a] becomes [x],
    the entries of the other addresses stay. *)
Lemma assign_found a (cs : list ContactEntry) i x :
  findIndex a cs = Some i ->
  address x = a ->
  contact_of a (assign i x cs) = Some x /\
  (forall a', a' <> a -> contact_of a' (assign i x cs) = contact_of a' cs) /\
  map address (assign i x cs) = map address cs /\
  findIndex a (assign i x cs) = Some i.
Proof.
  revert i. unfold contact_of.
  induction cs as [|c cs IH]; cbn; intros i Hi Hx; [discriminate|].
  destruct (String.eqb_spec (address c) a) as [Ha|Ha].
  - injection Hi as <-. cbn. rewrite Hx, String.eqb_refl.
    repeat split; [|congruence].
    intros a' Hne. apply not_eq_sym, String.eqb_neq in Hne.
    rewrite Ha. now rewrite Hne.
  - destruct (findIndex a cs) as [j|] eqn:Hj; cbn in Hi; [|discriminate].
    injection Hi as <-. cbn.
    destruct (IH j eq_refl Hx) as [H1 [H2 [H3 H4]]].
    apply String.eqb_neq in Ha. rewrite Ha, H4. cbn.
    repeat split; [assumption| |congruence].
    intros a' Hne. destruct (String.eqb (address c) a'); auto.
Qed.

Lemma contact_of_app_new a a' (cs : list ContactEntry) x :
  address x = a ->
  contact_of a' (cs ++ [x]) =
  match contact_of a' cs with
  | Some c => Some c
  | None => if a =? a' then Some x else None
  end.
Proof.
  intros Hx. unfold contact_of. induction cs as [|c cs IH]; cbn.
  - now rewrite Hx.
  - destruct (String.eqb (address c) a'); auto.
Qed.

(** X12. After [updateUserContacts(userId, a, message)] the list of
    [userId] has a contact for [a] that carries the content and the time
    of the message; the contacts of the other addresses in that list, and
    the lists of the other users, are as before. *)
Theorem updateUserContacts_sets_the_contact :
  forall (users : JsMap (list ContactEntry)) (userId a : string)
         (message : ChatMessage),
    let users' := updateUserContacts userId a message users in
    (exists c,
        contact_of a (get_or_empty userId users') = Some c /\
        address c = a /\
        lastMessage c = content message /\
        timestamp c = sent_at message) /\
    (forall a', a' <> a ->
                contact_of a' (get_or_empty userId users') =
                contact_of a' (get_or_empty userId users)) /\
    (forall u, u <> userId -> map_get u users' = map_get u users).
Proof.
  intros users userId a message users'.
  assert (Hget : forall (V : Type) (k : string) (v : V) (m : JsMap V),
             map_get k (map_set k v m) = Some v).
  { intros V k v m. induction m as [|[k' v'] m IH]; cbn.
    - now rewrite String.eqb_refl.
    - destruct (String.eqb_spec k' k) as [->|Hne]; cbn.
      + now rewrite String.eqb_refl.
      + apply String.eqb_neq in Hne. now rewrite Hne. }
  assert (Hother : forall (V : Type) (k u : string) (v : V) (m : JsMap V),
             u <> k -> map_get u (map_set k v m) = map_get u m).
  { intros V k u v m Hne. induction m as [|[k' v'] m IH]; cbn.
    - apply not_eq_sym, String.eqb_neq in Hne. now rewrite Hne.
    - destruct (String.eqb_spec k' k) as [->|Hk]; cbn; [|now rewrite IH].
      apply not_eq_sym, String.eqb_neq in Hne. now rewrite Hne. }
  assert (Hlist : get_or_empty userId users' =
                  update_contacts a message (get_or_empty userId users)).
  { unfold users', updateUserContacts, get_or_empty at 1. now rewrite Hget. }
  rewrite Hlist. unfold update_contacts.
  split; [|split].
  - destruct (findIndex a (get_or_empty userId users)) as [i|] eqn:Hi.
    + destruct (findIndex_nth _ _ _ Hi) as [old [Hnth [Hold _]]].
      rewrite Hnth.
      eexists. split; [apply assign_found; [exact Hi|exact Hold]|].
      cbn. repeat split. exact Hold.
    + eexists. split.
      * rewrite (contact_of_app_new a a) by reflexivity.
        rewrite (findIndex_none _ _ Hi), String.eqb_refl. reflexivity.
      * repeat split.
  - intros a' Hne.
    destruct (findIndex a (get_or_empty userId users)) as [i|] eqn:Hi.
    + destruct (findIndex_nth _ _ _ Hi) as [old [Hnth [Hold _]]].
      rewrite Hnth.
      match goal with
      | |- context [assign i ?x _] =>
          destruct (assign_found a _ i x Hi Hold) as [_ [Hkeep _]]
      end.
      now apply Hkeep.
    + rewrite (contact_of_app_new a a') by reflexivity.
      destruct (contact_of a' (get_or_empty userId users)); [reflexivity|].
      apply not_eq_sym, String.eqb_neq in Hne. now rewrite Hne.
  - intros u Hne. unfold users', updateUserContacts. now apply Hother.
Qed.

(** X13. [updateUserContacts] adds a contact only for an address the list
    does not have: a list that names each address once still does
    afterwards, and it grows by one entry for a new address and by none
    for a known one. *)
Theorem update_contacts_keeps_addresses_distinct :
  forall (a : string) (message : ChatMessage) (cs : list ContactEntry),
    NoDup (map address cs) ->
    NoDup (map address (update_contacts a message cs)) /\
    length (update_contacts a message cs) =
    match contact_of a cs with
    | Some _ => length cs
    | None => S (length cs)
    end.
Proof.
  intros a message cs Hnd. unfold update_contacts.
  destruct (findIndex a cs) as [i|] eqn:Hi.
  - destruct (findIndex_nth _ _ _ Hi) as [old [Hnth [Hold Hc]]].
    rewrite Hnth, Hc.
    match goal with
    | |- context [assign i ?x cs] =>
        destruct (assign_found a cs i x Hi Hold) as [_ [_ [Hmap _]]]
    end.
    rewrite Hmap. split; [assumption|].
    rewrite <- (length_map address), Hmap. apply length_map.
  - rewrite (findIndex_none _ _ Hi). split.
    + rewrite map_app. cbn.
      apply NoDup_app; [assumption|repeat constructor; intros []|].
      intros x Hin [<-|[]].
      apply in_map_iff in Hin as [c [Hc Hin]].
      assert (Hfind : contact_of (address c) cs <> None).
      { unfold contact_of. intros Hnone.
        apply (find_none _ _ Hnone) in Hin.
        now rewrite String.eqb_refl in Hin. }
      rewrite Hc in Hfind. now rewrite (findIndex_none _ _ Hi) in Hfind.
    + rewrite length_app. cbn. lia.
Qed.

Lemma update_contacts_keeps_addresses_distinct_witness :
  let message := {| content := "hi"; sent_at := 7 |} in
  let cs := [{| address := "0xB"; lastMessage := "old"; timestamp := 1;
                others := [] |}] in
  NoDup (map address (update_contacts "0xC" message cs)) /\
  length (update_contacts "0xC" message cs) =
  match contact_of "0xC" cs with
  | Some _ => length cs
  | None => S (length cs)
  end.
Proof.
  apply update_contacts_keeps_addresses_distinct.
  cbn. repeat constructor. intros [].
Defined.

(** X14. [updateUserContacts] with the same address and message a second
    time changes nothing. *)
Theorem update_contacts_twice :
  forall (a : string) (message : ChatMessage) (cs : list ContactEntry),
    update_contacts a message (update_contacts a message cs) =
    update_contacts a message cs.
Proof.
  intros a message cs.
  assert (Hassign : forall i x (l : list ContactEntry),
             assign i x (assign i x l) = assign i x l).
  { intros i x l. revert i.
    induction l as [|c l IH]; intros [|i]; cbn; auto. now rewrite IH. }
  assert (Hnth_assign : forall i x y (l : list ContactEntry),
             nth_error l i = Some y -> nth_error (assign i x l) i = Some x).
  { intros i x y l. revert i.
    induction l as [|c l IH]; intros [|i]; cbn; try discriminate; auto. }
  destruct (findIndex a cs) as [i|] eqn:Hi.
  - destruct (findIndex_nth _ _ _ Hi) as [old [Hnth [Hold _]]].
    set (x := {| address := address old; lastMessage := content message;
                 timestamp := sent_at message; others := others old |}).
    assert (Heq : update_contacts a message cs = assign i x cs)
      by (unfold update_contacts; now rewrite Hi, Hnth).
    rewrite Heq.
    destruct (assign_found a cs i x Hi Hold) as [_ [_ [_ Hidx]]].
    unfold update_contacts.
    rewrite Hidx, (Hnth_assign i x old cs Hnth). cbn. apply Hassign.
  - set (x := {| address := a; lastMessage := content message;
                 timestamp := sent_at message; others := [] |}).
    assert (Heq : update_contacts a message cs = cs ++ [x])
      by (unfold update_contacts; now rewrite Hi).
    rewrite Heq.
    assert (Hidx : findIndex a (cs ++ [x]) = Some (length cs)).
    { clear -Hi. induction cs as [|c cs IH]; cbn in *.
      - now rewrite String.eqb_refl.
      - destruct (String.eqb (address c) a); [discriminate|].
        destruct (findIndex a cs); [discriminate|].
        now rewrite IH. }
    unfold update_contacts. rewrite Hidx.
    rewrite nth_error_app2, Nat.sub_diag by lia. cbn.
    clear. induction cs as [|c cs IH]; cbn; [reflexivity|]. now rewrite IH.
Qed.

End CallsAndContacts.

(* ===================================================================== *)
(** ** The session: failures, media and retries                           *)
(* ===================================================================== *)

Section SessionMore.

Import WebRTC Reading.

Variable B : Browser.

Implicit Types (s : WebRTCManager) (t : list Effect).

Ltac run :=
  unfold bind, try_catch, ret, throw, get, modify, effect, pc_update,
    pc_create, socket_emit, notify_state, setupDataChannel,
    setupPeerConnection, pc_createDataChannel, acquire_media, state_of,
    outcome_of, effects_of in *;
  cbn in *.

(** The loop of [processPendingCandidates] always returns, writes no
    field but the connection and emits nothing, with or without a
    connection. *)
Lemma add_all_pending_quiet (cs : list string) s :
  exists pc' t,
    add_all_pending B cs s = (Returned tt, set_peerConnection pc' s, t)
    /\ emitted t = [].
Proof.
  revert s. induction cs as [|c cs IH]; intros s.
  - exists (peerConnection s), []. split; [|reflexivity].
    destruct s; reflexivity.
  - cbn [add_all_pending]. unfold add_pending. run.
    destruct (peerConnection s) as [pc|] eqn:Hpc; cbn.
    + destruct (addIceCandidate B c pc) as [pc1|err]; cbn.
      * destruct (IH (set_peerConnection (Some pc1) s)) as [pc' [t [H Ht]]].
        rewrite H. exists pc'. eexists. split; [reflexivity|exact Ht].
      * destruct (IH s) as [pc' [t [H Ht]]].
        rewrite H. exists pc'. eexists. split; [reflexivity|exact Ht].
    + destruct (IH s) as [pc' [t [H Ht]]].
      rewrite H. exists pc'. eexists. split; [reflexivity|exact Ht].
Qed.

(** X15. [initiateConnection], [handleOffer], [handleAnswer] and
    [handleIceCandidate] return on every session and with every browser:
    whatever a call of the browser throws is caught inside the method. *)
Theorem negotiation_never_throws :
  forall (n : Negotiation) s,
    outcome_of (negotiate B n s) = Returned tt.
Proof.
  intros n s.
  assert (Hcatch : forall (body h : M unit),
             (forall s', outcome_of (h s') = Returned tt) ->
             outcome_of (try_catch body (fun _ => h) s) = Returned tt).
  { intros body h Hh. unfold try_catch, outcome_of in *.
    destruct (body s) as [[[[]|e] s1] t1]; cbn; [reflexivity|].
    specialize (Hh s1). destruct (h s1) as [[r s2] t2]. exact Hh. }
  destruct n; cbn [negotiate];
    unfold initiateConnection, handleOffer, handleAnswer, handleIceCandidate;
    apply Hcatch; intros s'; run;
    try destruct (onConnectionStateCallback s'); reflexivity.
Qed.

(** What [initiateConnection] can leave behind. *)
Lemma initiateConnection_cases :
  forall s (remote : string),
    (emitted (effects_of (initiateConnection B remote s)) = [] /\
     (state_of (initiateConnection B remote s) = s \/
      connectionState (state_of (initiateConnection B remote s)) = "failed"))
    \/
    (exists offer,
        emitted (effects_of (initiateConnection B remote s)) =
        [WebrtcOffer offer remote (localAddress s)] /\
        connectionState (state_of (initiateConnection B remote s))
        = "connecting" /\
        remoteAddress (state_of (initiateConnection B remote s)) = remote /\
        isInitiator (state_of (initiateConnection B remote s)) = true).
Proof.
  intros s remote. unfold initiateConnection. run.
  destruct (peerConnection s) as [pc|] eqn:Hpc; cbn; [|left; auto].
  destruct ((remoteAddress s =? remote)
            && ((connectionState s =? "connected")
                || (connectionState s =? "connecting"))); cbn;
    [left; auto|].
  rewrite Hpc.
  destruct (createDataChannel B "messages" pc) as [[dc pc1]|err]; cbn;
    [|destruct (onConnectionStateCallback s); cbn; left; auto].
  destruct (createOffer B pc1) as [offer|err]; cbn;
    [|destruct (onConnectionStateCallback s); cbn; left; auto].
  destruct (setLocalDescription B offer pc1) as [pc2|err]; cbn;
    [|destruct (onConnectionStateCallback s); cbn; left; auto].
  destruct (socket s); cbn;
    [|destruct (onConnectionStateCallback s); cbn; left; auto].
  right. exists offer. repeat split.
Qed.

(** X16. [initiateConnection] emits at most one message. When it emits
    one, that is the offer for the address asked for, signed with the
    local address, and the session is 'connecting' toward that address as
    initiator. When it emits none, either the session is exactly as
    before, or its state is 'failed'. *)
Theorem initiateConnection_offer_or_failed :
  forall s (remote : string),
    (emitted (effects_of (initiateConnection B remote s)) = [] /\
     (state_of (initiateConnection B remote s) = s \/
      connectionState (state_of (initiateConnection B remote s)) = "failed"))
    \/
    (exists offer,
        emitted (effects_of (initiateConnection B remote s)) =
        [WebrtcOffer offer remote (localAddress s)] /\
        connectionState (state_of (initiateConnection B remote s))
        = "connecting" /\
        remoteAddress (state_of (initiateConnection B remote s)) = remote /\
        isInitiator (state_of (initiateConnection B remote s)) = true).
Proof. exact initiateConnection_cases. Qed.

(** What [handleOffer] can leave behind. *)
Lemma handleOffer_cases :
  forall s (offer : SessionDescription) (senderAddress : string),
    (emitted (effects_of (handleOffer B offer senderAddress s)) = [] /\
     (state_of (handleOffer B offer senderAddress s) = s \/
      connectionState (state_of (handleOffer B offer senderAddress s))
      = "failed"))
    \/
    (exists answer,
        emitted (effects_of (handleOffer B offer senderAddress s)) =
        [WebrtcAnswer answer senderAddress (localAddress s)] /\
        connectionState (state_of (handleOffer B offer senderAddress s))
        = "connecting" /\
        remoteAddress (state_of (handleOffer B offer senderAddress s))
        = senderAddress /\
        isInitiator (state_of (handleOffer B offer senderAddress s)) = false /\
        pendingCandidates (state_of (handleOffer B offer senderAddress s))
        = []).
Proof.
  intros s offer senderAddress.
  unfold handleOffer, processPendingCandidates. run.
  destruct (peerConnection s) as [pc|] eqn:Hpc; cbn; [|left; auto].
  destruct (negb (signalingState pc =? "stable")
            && negb (signalingState pc =? "have-local-offer")); cbn;
    [left; auto|].
  rewrite Hpc.
  destruct (setRemoteDescription B offer pc) as [pc1|err]; cbn;
    [|destruct (onConnectionStateCallback s); cbn; left; auto].
  destruct (createAnswer B pc1) as [answer|err]; cbn;
    [|destruct (onConnectionStateCallback s); cbn; left; auto].
  destruct (setLocalDescription B answer pc1) as [pc2|err]; cbn;
    [|destruct (onConnectionStateCallback s); cbn; left; auto].
  match goal with
  | |- context [add_all_pending B ?cs ?s0] =>
      destruct (add_all_pending_quiet cs s0) as [pc' [t [Hrun Ht]]]
  end.
  rewrite Hrun. cbn.
  destruct (socket s); cbn.
  - right. exists answer. rewrite !emitted_app, Ht. repeat split.
  - left. destruct (onConnectionStateCallback s); cbn;
      rewrite !emitted_app, Ht; auto.
Qed.

(** X17. [handleOffer] emits at most one message. When it emits one, that
    is the answer for the sender of the offer, signed with the local
    address, the queue of candidates is empty and the session is
    'connecting' toward the sender as responder. When it emits none,
    either the session is exactly as before, or its state is 'failed'. *)
Theorem handleOffer_answer_or_failed :
  forall s (offer : SessionDescription) (senderAddress : string),
    (emitted (effects_of (handleOffer B offer senderAddress s)) = [] /\
     (state_of (handleOffer B offer senderAddress s) = s \/
      connectionState (state_of (handleOffer B offer senderAddress s))
      = "failed"))
    \/
    (exists answer,
        emitted (effects_of (handleOffer B offer senderAddress s)) =
        [WebrtcAnswer answer senderAddress (localAddress s)] /\
        connectionState (state_of (handleOffer B offer senderAddress s))
        = "connecting" /\
        remoteAddress (state_of (handleOffer B offer senderAddress s))
        = senderAddress /\
        isInitiator (state_of (handleOffer B offer senderAddress s)) = false /\
        pendingCandidates (state_of (handleOffer B offer senderAddress s))
        = []).
Proof. exact handleOffer_cases. Qed.

(** X18. With a peer connection that accepts answers ('have-local-offer'),
    [handleAnswer] leaves the session 'connecting' with an empty queue
    when the browser takes the answer; when [setRemoteDescription]
    throws, it leaves the session 'failed' with its queue untouched and
    tells the state callback 'failed'. *)
Theorem handleAnswer_connecting_or_failed :
  forall s (pc : RTCPeerConnection) (answer : SessionDescription),
    peerConnection s = Some pc ->
    signalingState pc = "have-local-offer" ->
    match setRemoteDescription B answer pc with
    | Returned _ =>
        connectionState (state_of (handleAnswer B answer s)) = "connecting" /\
        pendingCandidates (state_of (handleAnswer B answer s)) = []
    | Threw _ =>
        state_of (handleAnswer B answer s) = set_connectionState "failed" s /\
        candidates_added (effects_of (handleAnswer B answer s)) = [] /\
        forall cb, onConnectionStateCallback s = Some cb ->
                   In (ConnectionStateCallback cb "failed")
                      (effects_of (handleAnswer B answer s))
    end.
Proof.
  intros s pc answer Hpc Hsig.
  unfold handleAnswer, processPendingCandidates. run.
  rewrite Hpc, Hsig. cbn. rewrite Hpc.
  destruct (setRemoteDescription B answer pc) as [pc1|err]; cbn.
  - match goal with
    | |- context [add_all_pending B ?cs ?s0] =>
        destruct (add_all_pending_quiet cs s0) as [pc' [t [Hrun Ht]]]
    end.
    rewrite Hrun. cbn. split; reflexivity.
  - destruct (onConnectionStateCallback s) as [cb|]; cbn.
    + repeat split. intros cb' [= <-]. auto.
    + repeat split. discriminate.
Qed.

(** X19. Once the remote description is set, [handleIceCandidate] hands
    the candidate to [addIceCandidate] at once and returns, whether the
    browser takes it or throws; the queue is not touched. *)
Theorem candidate_after_remote_description_is_applied_at_once :
  forall s (pc : RTCPeerConnection) (d : SessionDescription) (c : string),
    peerConnection s = Some pc ->
    remoteDescription pc = Some d ->
    outcome_of (handleIceCandidate B c s) = Returned tt /\
    candidates_added (effects_of (handleIceCandidate B c s)) = [c] /\
    pendingCandidates (state_of (handleIceCandidate B c s)) =
    pendingCandidates s.
Proof.
  intros s pc d c Hpc Hrd. unfold handleIceCandidate. run.
  rewrite Hpc, Hrd. cbn. rewrite Hpc.
  destruct (addIceCandidate B c pc); cbn; repeat split.
Qed.

Lemma tracks_stopped_app t1 t2 :
  tracks_stopped (t1 ++ t2) = tracks_stopped t1 ++ tracks_stopped t2.
Proof.
  induction t1 as [|e t1 IH]; [reflexivity|].
  destruct e; cbn; now rewrite ?IH.
Qed.

(** [close()] stops the tracks of the local stream, each once and in
    order, and no other track. *)
Lemma close_stops_local_tracks s :
  tracks_stopped (effects_of (close s)) =
  match localStream s with
  | Some stream => getTracks stream
  | None => []
  end.
Proof.
  destruct s as [pc dc ls omc ocs so la ra ini cs pend].
  unfold close, close_dataChannel, close_localStream, close_peerConnection.
  run. destruct dc, ls as [stream|], pc; run;
    rewrite ?stop_tracks_run; cbn; try reflexivity;
    rewrite ?app_nil_r, ?tracks_stopped_app; cbn; rewrite ?app_nil_r;
    induction (getTracks stream) as [|x l IH]; cbn; congruence.
Qed.

(** After the media is acquired, [startCall] writes the connection and
    nothing else. *)
Lemma startCall_keeps_stream s (video : bool) stream :
  getUserMedia B video = Returned stream ->
  exists pc',
    state_of (startCall B video s) =
    set_peerConnection pc' (set_localStream (Some stream) s).
Proof.
  intros Hmedia. unfold startCall. run. rewrite Hmedia. cbn.
  destruct (add_tracks_run B (getTracks stream)
              (set_localStream (Some stream) s))
    as [r [pc' [t [Hrun _]]]].
  rewrite Hrun. cbn.
  destruct r as [[]|err]; cbn; [|now exists pc'].
  destruct pc' as [pc1|]; cbn; [|now exists None].
  destruct (createOffer B pc1) as [offer|err]; cbn; [|now exists (Some pc1)].
  destruct (setLocalDescription B offer pc1) as [pc2|err]; cbn;
    [|now exists (Some pc1)].
  destruct (socket s); cbn; now exists (Some pc2).
Qed.

(** X20. Whatever happens in [startCall] after [getUserMedia] returned a
    stream, the session keeps that stream, and a later [close()] stops
    every track of it, once each, and drops it. *)
Theorem close_stops_tracks_acquired_by_startCall :
  forall s (video : bool) (stream : MediaStream),
    getUserMedia B video = Returned stream ->
    localStream (state_of (startCall B video s)) = Some stream /\
    tracks_stopped (effects_of (close (state_of (startCall B video s)))) =
    getTracks stream /\
    localStream (closed (state_of (startCall B video s))) = None.
Proof.
  intros s video stream Hmedia.
  destruct (startCall_keeps_stream s video stream Hmedia) as [pc' Hstate].
  rewrite close_stops_local_tracks, closed_released, Hstate.
  repeat split.
Qed.

(** X21. [startCall] has no guard for a released connection: on a session
    without peer connection it acquires the media, keeps the stream, and
    throws a [TypeError]; it emits nothing and stops no track. *)
Theorem startCall_without_connection_throws :
  forall s (video : bool) (stream : MediaStream),
    peerConnection s = None ->
    getUserMedia B video = Returned stream ->
    outcome_of (startCall B video s) = Threw "TypeError" /\
    state_of (startCall B video s) = set_localStream (Some stream) s /\
    emitted (effects_of (startCall B video s)) = [] /\
    tracks_stopped (effects_of (startCall B video s)) = [].
Proof.
  intros s video stream Hpc Hmedia. unfold startCall. run.
  rewrite Hmedia. cbn.
  destruct (getTracks stream) as [|x ts]; cbn [add_tracks]; run;
    rewrite Hpc; cbn; repeat split.
Qed.

(** X22. On every session a program can hold, [getConnectionState()]
    answers 'new', 'connecting', 'connected', 'failed' or 'closed'. *)
Theorem getConnectionState_values :
  forall s, reachable B s -> In (getConnectionState s) shown_states.
Proof.
  intros s Hreach. unfold getConnectionState, shown_states.
  destruct (channel_open s); [cbn; tauto|].
  pose proof (reachable_connectionState B s Hreach) as H.
  cbn in *. tauto.
Qed.

(** X23. [reset()] makes a session negotiate again: from whatever state,
    after [reset()] a call of [initiateConnection], also for the address
    the session was connecting to, is not skipped and asks the new
    connection for a data channel. *)
Theorem reset_lets_initiate_again :
  forall s (remote : string),
    In (CreateDataChannel "messages")
       (effects_of (initiateConnection B remote (state_of (reset B s)))).
Proof.
  intros s remote.
  destruct (close_run s) as [t [Hclose _]].
  unfold reset. run. rewrite Hclose. cbn. clear Hclose.
  unfold initiateConnection. run.
  rewrite andb_false_r. cbn.
  destruct (createDataChannel B "messages" (newRTCPeerConnection B))
    as [[dc pc1]|err]; cbn;
    [|destruct (onConnectionStateCallback s); cbn; auto 10].
  destruct (createOffer B pc1) as [offer|err]; cbn;
    [|destruct (onConnectionStateCallback s); cbn; auto 10].
  destruct (setLocalDescription B offer pc1) as [pc2|err]; cbn;
    [|destruct (onConnectionStateCallback s); cbn; auto 10].
  destruct (socket s); cbn;
    [|destruct (onConnectionStateCallback s); cbn]; auto 10.
Qed.

End SessionMore.

(* ===================================================================== *)
(** ** Signaling messages on their way to the peer                        *)
(* ===================================================================== *)

Section OnTheWire.

Import Relay WebRTC Wire.

Lemma route_target target ev b st d :
  route target ev b st = Some d ->
  find_socket target (connectedUsers st) = Some (to d) /\
  event d = ev /\ body d = b.
Proof.
  unfold route. destruct (find_socket target (connectedUsers st)) as [t|];
    [|discriminate].
  destruct (truthy (Some t)); [|discriminate].
  intros [= <-]. repeat split.
Qed.

(** X24. A candidate the browser gathers for a session is emitted as
    'ice-candidate'; the relay forwards it under that same event, with the
    candidate unchanged, to the socket of the session's remote address.
    'ice-candidate' is not an event the P2P context subscribes to, so the
    delivery calls no method of the peer's session: [handleIceCandidate]
    is not reached this way. *)
Theorem gathered_candidate_is_not_handled :
  forall (s : WebRTCManager) (c sid : string) (st : State)
         (m : SignalingMessage) (d : Delivery),
    In m (emitted (effects_of (onicecandidate (Some c) s))) ->
    relay sid m st = Some d ->
    find_socket (remoteAddress s) (connectedUsers st) = Some (to d) /\
    event d = "ice-candidate" /\
    body d = BCandidate c (map_get sid (socketUserId st)) /\
    ~ In (event d) subscriptions /\
    forall connections, on_signal connections d = None.
Proof.
  intros s c sid st m d Hm Hrelay.
  unfold onicecandidate, bind, get, socket_emit, ret, effects_of in Hm.
  cbn in Hm. destruct (socket s) eqn:Hs; cbn in Hm; [|contradiction].
  rewrite Hs in Hm. cbn in Hm. destruct Hm as [<-|[]]. cbn in Hrelay.
  apply route_target in Hrelay as [Hto [Hev Hbody]].
  repeat split; try assumption.
  - rewrite Hev. cbn. intuition discriminate.
  - intros connections. unfold on_signal. rewrite Hev. reflexivity.
Qed.

Lemma gathered_candidate_is_not_handled_witness :
  let st := fst (join "sockB" "0xB" (fst (join "sockA" "0xA" initial))) in
  let d := {| to := "sockB"; event := "ice-candidate";
              body := BCandidate "c1" (Some "0xA") |} in
  find_socket (remoteAddress offering) (connectedUsers st) = Some (to d) /\
  event d = "ice-candidate" /\
  body d = BCandidate "c1" (map_get "sockA" (socketUserId st)) /\
  ~ In (event d) subscriptions /\
  forall connections, on_signal connections d = None.
Proof.
  intros st d.
  apply (gathered_candidate_is_not_handled offering "c1" "sockA" st
           (IceCandidateMsg "c1" "0xB") d).
  - left. reflexivity.
  - reflexivity.
Defined.

(** X25. The offer a session emits in [initiateConnection] is forwarded
    to the socket of the remote identity, where the P2P context calls
    [handleOffer], with that offer and the initiator's address as sender,
    on the session it keeps or makes for the initiator's address. The
    answer that session emits in return is forwarded to the socket of the
    initiator's address. There the P2P context calls [handleAnswer] with
    that answer on the session stored under the responder's address when
    it has one, and calls nothing when it has none. *)
Theorem handshake_messages_are_routed :
  forall (B : Browser) (sA sB : WebRTCManager) (st : State)
         (connectionsA connectionsB : JsMap WebRTCManager)
         (sidA sidB remote : string) (m m' : SignalingMessage)
         (d d' : Delivery) (call : Dispatch),
    In m (emitted (effects_of (initiateConnection B remote sA))) ->
    relay sidA m st = Some d ->
    on_signal connectionsB d = Some call ->
    In m' (emitted (effects_of (negotiate B (method call) sB))) ->
    relay sidB m' st = Some d' ->
    find_socket remote (connectedUsers st) = Some (to d) /\
    find_socket (localAddress sA) (connectedUsers st) = Some (to d') /\
    exists offer answer,
      m = WebrtcOffer offer remote (localAddress sA) /\
      call = {| session_key := localAddress sA;
                method := Offer offer (localAddress sA) |} /\
      m' = WebrtcAnswer answer (localAddress sA) (localAddress sB) /\
      (forall stored,
          map_get (localAddress sB) connectionsA = Some stored ->
          on_signal connectionsA d' =
          Some {| session_key := localAddress sB;
                  method := Answer answer |}) /\
      (map_get (localAddress sB) connectionsA = None ->
       on_signal connectionsA d' = None).
Proof.
  intros B sA sB st connectionsA connectionsB sidA sidB remote m m' d d' call
    Hm Hrelay Hcall Hm' Hrelay'.
  destruct (initiateConnection_cases B sA remote)
    as [[Hnone _]|[offer [Hone _]]];
    [rewrite Hnone in Hm; contradiction|].
  rewrite Hone in Hm. destruct Hm as [<-|[]]. cbn in Hrelay.
  apply route_target in Hrelay as [Hto [Hev Hbody]].
  unfold on_signal in Hcall. rewrite Hev, Hbody in Hcall. cbn in Hcall.
  injection Hcall as <-. cbn [negotiate method] in Hm'.
  destruct (handleOffer_cases B sB offer (localAddress sA))
    as [[Hnone' _]|[answer [Hone' _]]];
    [rewrite Hnone' in Hm'; contradiction|].
  rewrite Hone' in Hm'. destruct Hm' as [<-|[]]. cbn in Hrelay'.
  apply route_target in Hrelay' as [Hto' [Hev' Hbody']].
  repeat split; try assumption.
  exists offer, answer. repeat split.
  - intros stored Hstored. unfold on_signal, on_stored.
    rewrite Hev', Hbody'. cbn. now rewrite Hstored.
  - intros Hnone. unfold on_signal, on_stored.
    rewrite Hev', Hbody'. cbn. now rewrite Hnone.
Qed.

Lemma handshake_messages_are_routed_witness :
  let st := fst (join "sockB" "0xB" (fst (join "sockA" "0xA" initial))) in
  let sB := constructor plain_browser (Some 2) "0xB" in
  let offer := {| sd_type := "offer"; sdp := "v=0 o" |} in
  let answer := {| sd_type := "answer"; sdp := "v=0 a" |} in
  let connectionsA := [("0xB", offering)] in
  let d := {| to := "sockB"; event := "webrtc-offer";
              body := BOffer offer "0xA" |} in
  let d' := {| to := "sockA"; event := "webrtc-answer";
               body := BAnswer answer "0xB" |} in
  find_socket "0xB" (connectedUsers st) = Some (to d) /\
  find_socket (localAddress fresh) (connectedUsers st) = Some (to d') /\
  exists o a,
    WebrtcOffer offer "0xB" "0xA" = WebrtcOffer o "0xB" (localAddress fresh) /\
    {| session_key := "0xA"; method := Offer offer "0xA" |} =
    {| session_key := localAddress fresh;
       method := Offer o (localAddress fresh) |} /\
    WebrtcAnswer answer "0xA" "0xB" =
    WebrtcAnswer a (localAddress fresh) (localAddress sB) /\
    (forall stored,
        map_get (localAddress sB) connectionsA = Some stored ->
        on_signal connectionsA d' =
        Some {| session_key := localAddress sB; method := Answer a |}) /\
    (map_get (localAddress sB) connectionsA = None ->
     on_signal connectionsA d' = None).
Proof.
  intros st sB offer answer connectionsA d d'.
  apply (handshake_messages_are_routed plain_browser fresh sB st
           connectionsA [] "sockA" "sockB" "0xB"
           (WebrtcOffer offer "0xB" "0xA")
           (WebrtcAnswer answer "0xA" "0xB") d d'
           {| session_key := "0xA"; method := Offer offer "0xA" |}).
  - left. reflexivity.
  - reflexivity.
  - reflexivity.
  - left. reflexivity.
  - reflexivity.
Defined.

End OnTheWire.

(* ===================================================================== *)
(** ** Encryption and the secure storage                                  *)
(* ===================================================================== *)

Section Secure.

Import Relay Encryption.

Context {Key V : Type}.
Variable P : Platform Key V.

Lemma map_get_set_eq {A} (k : string) (v : A) (m : JsMap A) :
  map_get k (map_set k v m) = Some v.
Proof.
  induction m as [|[k' v'] m IH]; cbn.
  - now rewrite String.eqb_refl.
  - destruct (String.eqb_spec k' k) as [->|Hne]; cbn.
    + now rewrite String.eqb_refl.
    + apply String.eqb_neq in Hne. now rewrite Hne.
Qed.

Lemma map_get_set_ne {A} (k k' : string) (v : A) (m : JsMap A) :
  k' <> k -> map_get k' (map_set k v m) = map_get k' m.
Proof.
  intros Hne. induction m as [|[k2 v2] m IH]; cbn.
  - apply not_eq_sym, String.eqb_neq in Hne. now rewrite Hne.
  - destruct (String.eqb_spec k2 k) as [->|Hk]; cbn; [|now rewrite IH].
    apply not_eq_sym, String.eqb_neq in Hne. now rewrite Hne.
Qed.

Lemma map_get_delete_eq {A} (k : string) (m : JsMap A) :
  map_wf m -> map_get k (map_delete k m) = None.
Proof.
  unfold map_wf, map_keys.
  induction m as [|[k2 v2] m IH]; cbn; intros Hwf; [reflexivity|].
  inversion Hwf as [|? ? Hnotin Hwf']; subst.
  destruct (String.eqb_spec k2 k) as [->|Hk]; cbn.
  - destruct (map_get k m) eqn:Hget; [|reflexivity].
    exfalso. apply Hnotin. change k with (fst (k, a)).
    apply in_map. clear -Hget.
    induction m as [|[k' v'] m IH]; cbn in *; [discriminate|].
    destruct (String.eqb_spec k' k) as [->|]; [|right; auto].
    injection Hget as ->. now left.
  - apply String.eqb_neq in Hk. rewrite Hk. now apply IH.
Qed.

Lemma map_get_delete_ne {A} (k k' : string) (m : JsMap A) :
  k' <> k -> map_get k' (map_delete k m) = map_get k' m.
Proof.
  intros Hne. induction m as [|[k2 v2] m IH]; cbn; [reflexivity|].
  destruct (String.eqb_spec k2 k) as [->|Hk]; cbn.
  - apply not_eq_sym, String.eqb_neq in Hne. now rewrite Hne.
  - now rewrite IH.
Qed.

(** With a nonce of twelve bytes, [decrypt] finds the nonce and the
    cipher text that [encrypt] put together. *)
Lemma decrypt_encrypt_run (key : Key) (iv : list Byte.byte) (data : string) :
  length iv = 12 ->
  (forall x, atob P (btoa P x) = Some x) ->
  aes_gcm_decrypt P key iv (aes_gcm_encrypt P key iv (encode P data))
  = Some (encode P data) ->
  decode P (encode P data) = data ->
  encrypt P (Some key) iv data =
  WebRTC.Returned
    (btoa P
       (string_of_list_byte
          (iv ++ aes_gcm_encrypt P key iv (encode P data)))) /\
  decrypt P (Some key)
    (btoa P
       (string_of_list_byte
          (iv ++ aes_gcm_encrypt P key iv (encode P data))))
  = WebRTC.Returned data.
Proof.
  intros Hiv Hb64 Haes Htext. split; [reflexivity|].
  unfold decrypt. rewrite Hb64, list_byte_of_string_of_list_byte.
  cbn zeta. rewrite <- Hiv.
  rewrite firstn_app, skipn_app, firstn_all, skipn_all, Nat.sub_diag.
  cbn [firstn skipn app]. rewrite app_nil_r.
  now rewrite Haes, Htext.
Qed.

(** X26. [decrypt] undoes [encrypt]: with an initialised key and the
    twelve-byte nonce, on a platform where [atob] undoes [btoa], AES-GCM
    decryption undoes encryption under the same key and nonce, and
    [TextDecoder] undoes [TextEncoder] on the data, [encrypt] returns a
    text that [decrypt] turns back into the data. *)
Theorem decrypt_undoes_encrypt :
  forall (key : Key) (iv : list Byte.byte) (data : string),
    length iv = 12 ->
    (forall x, atob P (btoa P x) = Some x) ->
    aes_gcm_decrypt P key iv (aes_gcm_encrypt P key iv (encode P data))
    = Some (encode P data) ->
    decode P (encode P data) = data ->
    exists encrypted,
      encrypt P (Some key) iv data = WebRTC.Returned encrypted /\
      decrypt P (Some key) encrypted = WebRTC.Returned data.
Proof.
  intros key iv data Hiv Hb64 Haes Htext.
  destruct (decrypt_encrypt_run key iv data Hiv Hb64 Haes Htext) as [He Hd].
  eexists. split; [exact He|exact Hd].
Qed.

(** X27. [getItem] returns what [setItem] stored under the key, and
    [setItem] changes what [getItem] returns for no other key. The
    platform is as for [decrypt] and [encrypt]; moreover [JSON.parse]
    undoes [JSON.stringify] on the value and [btoa] of a non-empty string
    is not empty. *)
Theorem getItem_after_setItem :
  forall (key : Key) (iv : list Byte.byte) (k : string) (value : V)
         (storage : LocalStorage),
    length iv = 12 ->
    (forall x, atob P (btoa P x) = Some x) ->
    (forall x, x <> "" -> btoa P x <> "") ->
    aes_gcm_decrypt P key iv
      (aes_gcm_encrypt P key iv (encode P (JSON_stringify P value)))
    = Some (encode P (JSON_stringify P value)) ->
    decode P (encode P (JSON_stringify P value)) = JSON_stringify P value ->
    JSON_parse P (JSON_stringify P value) = Some value ->
    exists storage',
      setItem P (Some key) iv k value storage = WebRTC.Returned storage' /\
      getItem P (Some key) k storage' = (Some value, false) /\
      forall k' ck, k' <> k ->
                    getItem P ck k' storage' = getItem P ck k' storage.
Proof.
  intros key iv k value storage Hiv Hb64 Hne Haes Htext Hjson.
  destruct (decrypt_encrypt_run key iv (JSON_stringify P value)
              Hiv Hb64 Haes Htext) as [He Hd].
  unfold setItem. rewrite He. eexists. split; [reflexivity|]. split.
  - unfold getItem. rewrite map_get_set_eq.
    match goal with
    | |- context [String.eqb ?x ""] =>
        destruct (String.eqb_spec x "") as [Hempty|_]
    end.
    + exfalso. revert Hempty. apply Hne.
      destruct iv; [discriminate|]. discriminate.
    + now rewrite Hd, Hjson.
  - intros k' ck Hk. unfold getItem. now rewrite map_get_set_ne.
Qed.

(** X28. Without an initialised key, [setItem] throws and stores nothing,
    and [getItem] returns [null] for every key, also for one that holds
    an entry: it does not throw. *)
Theorem storage_without_key :
  forall (iv : list Byte.byte) (k : string) (value : V)
         (storage : LocalStorage),
    setItem P None iv k value storage =
    WebRTC.Threw "Encryption key not initialized" /\
    fst (getItem P None k storage) = None /\
    (forall encrypted,
        map_get k storage = Some encrypted -> encrypted <> "" ->
        getItem P None k storage = (None, true)).
Proof.
  intros iv k value storage. repeat split.
  - unfold getItem. destruct (map_get k storage) as [e|]; [|reflexivity].
    destruct (String.eqb e ""); reflexivity.
  - intros encrypted Hget Hne. unfold getItem. rewrite Hget.
    apply String.eqb_neq in Hne. now rewrite Hne.
Qed.

(** X29. After [removeItem(key)], [getItem(key)] returns [null] without a
    line on the console, and every other key reads as before. *)
Theorem getItem_after_removeItem :
  forall (ck : option Key) (k : string) (storage : LocalStorage),
    map_wf storage ->
    getItem P ck k (removeItem k storage) = (None, false) /\
    forall k', k' <> k ->
               getItem P ck k' (removeItem k storage) = getItem P ck k' storage.
Proof.
  intros ck k storage Hwf. unfold getItem, removeItem. split.
  - now rewrite map_get_delete_eq.
  - intros k' Hne. now rewrite map_get_delete_ne.
Qed.

End Secure.

Section SecureRuns.

Import Relay Encryption.

Lemma decrypt_undoes_encrypt_witness :
  exists encrypted,
    encrypt toy_platform (Some tt) toy_iv "hello" = WebRTC.Returned encrypted /\
    decrypt toy_platform (Some tt) encrypted = WebRTC.Returned "hello".
Proof.
  apply (decrypt_undoes_encrypt toy_platform tt toy_iv "hello").
  - reflexivity.
  - reflexivity.
  - reflexivity.
  - reflexivity.
Defined.

Lemma getItem_after_setItem_witness :
  exists storage',
    setItem toy_platform (Some tt) toy_iv "p2p_messages" "[]" []
    = WebRTC.Returned storage' /\
    getItem toy_platform (Some tt) "p2p_messages" storage' = (Some "[]", false) /\
    forall k' ck, k' <> "p2p_messages" ->
                  getItem toy_platform ck k' storage' =
                  getItem toy_platform ck k' [].
Proof.
  apply (getItem_after_setItem toy_platform tt toy_iv "p2p_messages" "[]" []).
  - reflexivity.
  - reflexivity.
  - intros x Hx. exact Hx.
  - reflexivity.
  - reflexivity.
  - reflexivity.
Defined.

Lemma getItem_after_removeItem_witness :
  getItem toy_platform (Some tt) "a" (removeItem "a" [("a", "x"); ("b", "y")])
  = (None, false) /\
  forall k', k' <> "a" ->
             getItem toy_platform (Some tt) k'
               (removeItem "a" [("a", "x"); ("b", "y")]) =
             getItem toy_platform (Some tt) k' [("a", "x"); ("b", "y")].
Proof.
  apply (getItem_after_removeItem toy_platform (Some tt) "a").
  unfold map_wf, map_keys. cbn.
  constructor; [intros [H|[]]; discriminate|].
  constructor; [intros []|constructor].
Defined.

End SecureRuns.

Section MoreRuns.

Import WebRTC Reading.

Lemma handleAnswer_connecting_or_failed_witness :
  connectionState (state_of (handleAnswer plain_browser remote_answer offering))
  = "connecting" /\
  pendingCandidates
    (state_of (handleAnswer plain_browser remote_answer offering)) = [].
Proof.
  exact (handleAnswer_connecting_or_failed plain_browser offering
           (with_signaling "have-local-offer" None
              (Some {| sd_type := "offer"; sdp := "v=0 o" |}))
           remote_answer eq_refl eq_refl).
Defined.

Lemma candidate_after_remote_description_is_applied_at_once_witness :
  let s := state_of (handleAnswer plain_browser remote_answer offering) in
  outcome_of (handleIceCandidate plain_browser "c1" s) = Returned tt /\
  candidates_added (effects_of (handleIceCandidate plain_browser "c1" s))
  = ["c1"] /\
  pendingCandidates (state_of (handleIceCandidate plain_browser "c1" s)) =
  pendingCandidates s.
Proof.
  intros s.
  apply (candidate_after_remote_description_is_applied_at_once plain_browser s
           (with_signaling "stable" (Some remote_answer)
              (Some {| sd_type := "offer"; sdp := "v=0 o" |}))
           remote_answer "c1").
  - reflexivity.
  - reflexivity.
Defined.

Lemma close_stops_tracks_acquired_by_startCall_witness :
  localStream (state_of (startCall plain_browser true offering)) =
  Some {| getTracks := ["audio0"; "video0"] |} /\
  tracks_stopped
    (effects_of (close (state_of (startCall plain_browser true offering)))) =
  ["audio0"; "video0"] /\
  localStream (closed (state_of (startCall plain_browser true offering)))
  = None.
Proof.
  apply (close_stops_tracks_acquired_by_startCall plain_browser offering true
           {| getTracks := ["audio0"; "video0"] |}).
  reflexivity.
Defined.

Lemma startCall_without_connection_throws_witness :
  let s := closed offering in
  outcome_of (startCall plain_browser false s) = Threw "TypeError" /\
  state_of (startCall plain_browser false s) =
  set_localStream (Some {| getTracks := ["audio0"] |}) s /\
  emitted (effects_of (startCall plain_browser false s)) = [] /\
  tracks_stopped (effects_of (startCall plain_browser false s)) = [].
Proof.
  intros s.
  apply (startCall_without_connection_throws plain_browser s false
           {| getTracks := ["audio0"] |}).
  - reflexivity.
  - reflexivity.
Defined.

Lemma offering_reachable : reachable plain_browser offering.
Proof.
  apply (reach_call plain_browser fresh (CallNegotiation (Initiate "0xB"))).
  apply reach_new.
Defined.

Lemma getConnectionState_values_witness :
  In (getConnectionState offering) shown_states.
Proof.
  exact (getConnectionState_values plain_browser offering offering_reachable).
Defined.

End MoreRuns.
